(** * A shallow embedding of the RPC chatroom (server.go, client.go)

    The server keeps one slice of formatted lines behind a mutex and hands
    every caller a copy of it.  Slices are modelled the way Go has them: a
    header (pointer, length, capacity) over a backing array that lives in a
    heap, so that sharing between the transcript and the replies is visible
    in the model and not assumed away. *)

From stdpp Require Import base option list gmap strings pretty.

Open Scope string_scope.
Open Scope list_scope.
Open Scope nat_scope.

(** ** Memory: backing arrays of [[]string] values *)

Abbreviation loc := positive (only parsing).
Abbreviation heap := (gmap positive (list string)) (only parsing).

(** A slice header.  [s_ptr = None] is the nil pointer of the zero slice. *)
Record slice := Slice { s_ptr : option loc; s_len : nat; s_cap : nat }.

Definition nil_slice : slice := Slice None 0 0.

(** Allocation of a new backing array at an address not in use. *)
Definition alloc (arr : list string) (h : heap) : loc * heap :=
  let l := fresh (dom h) in (l, <[l := arr]> h).

(** The elements [sl[0:len(sl)]] as the heap has them.  [None] when the
    header does not describe allocated memory. *)
Definition elems (sl : slice) (h : heap) : option (list string) :=
  match s_ptr sl with
  | None => if decide (s_len sl = 0) then Some [] else None
  | Some l =>
      arr ← h !! l;
      if decide (s_len sl ≤ length arr) then Some (take (s_len sl) arr) else None
  end.

(** [make([]string, n)]: a new array of [n] empty strings, [len = cap = n].
    (For [n = 0] Go returns a pointer to one shared zero-size object; the
    model allocates an empty array, which no read or write tells apart.) *)
Definition make (n : nat) (h : heap) : slice * heap :=
  let '(l, h') := alloc (replicate n "") h in
  (Slice (Some l) n n, h').

(** [copy(dst, src)]: copies [min(len(dst), len(src))] elements and returns
    that number.  The source is read before the destination is written
    (memmove). *)
Definition copy (dst src : slice) (h : heap) : option (nat * heap) :=
  let n := s_len dst `min` s_len src in
  srcv ← elems src h;
  match s_ptr dst with
  | None => if decide (s_len dst = 0) then Some (n, h) else None
  | Some l =>
      arr ← h !! l;
      if decide (s_len dst ≤ length arr)
      then Some (n, <[l := take n srcv ++ drop n arr]> h)
      else None
  end.

(** [sl[i] = v]; an index outside [0, len(sl)) panics. *)
Definition store (sl : slice) (i : nat) (v : string) (h : heap) : option heap :=
  if decide (i < s_len sl) then
    l ← s_ptr sl;
    arr ← h !! l;
    if decide (s_len sl ≤ length arr) then Some (<[l := <[i := v]> arr]> h) else None
  else None.

Section Growth.

(** The capacity of the array that [append] moves to when the old one is
    full is chosen by the runtime ([growslice]) and differs between Go
    versions; it is never below the length needed.  [growcap oldcap newLen]
    stands for the runtime's choice, and [append] takes the larger of it and
    [newLen]. *)
Variable growcap : nat → nat → nat.

(** [append(sl, x)] *)
Definition append (sl : slice) (x : string) (h : heap) : option (slice * heap) :=
  let newLen := S (s_len sl) in
  if decide (newLen ≤ s_cap sl) then
    (* room left in the backing array: the element is stored in place *)
    l ← s_ptr sl;
    arr ← h !! l;
    if decide (s_len sl < length arr)
    then Some (Slice (Some l) newLen (s_cap sl), <[l := <[s_len sl := x]> arr]> h)
    else None
  else
    (* growslice: new array, old elements moved, then the store *)
    old ← elems sl h;
    let newcap := newLen `max` growcap (s_cap sl) newLen in
    let '(l, h') := alloc (old ++ x :: replicate (newcap - newLen) "") h in
    Some (Slice (Some l) newLen newcap, h').

End Growth.

(** ** server.go *)

Record MessageArgs := { Name : string; Message : string }.

Record HistoryReply := { History : slice }.

(** The zero value of [HistoryReply]. *)
Definition zero_reply : HistoryReply := {| History := nil_slice |}.

(** [mu] is [true] while the mutex is held. *)
Record ChatServer := { history : slice; mu : bool }.

(** Go's [error]; [None] is [nil]. *)
Abbreviation error := (option string) (only parsing).

(** The process: the heap, the one [ChatServer] that [main] creates, and
    what [log.Printf] has written (without the timestamp prefix). *)
Record state := { mem : heap; srv : ChatServer; logged : list string }.

(** [server := new(ChatServer)] *)
Definition new_ChatServer : ChatServer := {| history := nil_slice; mu := false |}.

Definition init : state := {| mem := ∅; srv := new_ChatServer; logged := [] |}.

(** [s.mu.Lock()].  [None] while the mutex is held: the caller waits. *)
Definition Lock (s : state) : option state :=
  if mu (srv s) then None
  else Some {| mem := mem s; srv := {| history := history (srv s); mu := true |};
               logged := logged s |}.

(** [s.mu.Unlock()], here always the deferred one.  Unlocking a mutex that
    is not held is a fatal error of the runtime: [None]. *)
Definition Unlock (s : state) : option state :=
  if mu (srv s)
  then Some {| mem := mem s; srv := {| history := history (srv s); mu := false |};
               logged := logged s |}
  else None.

Definition set_history (sl : slice) (m : heap) (s : state) : state :=
  {| mem := m; srv := {| history := sl; mu := mu (srv s) |}; logged := logged s |}.

Definition set_mem (m : heap) (s : state) : state :=
  {| mem := m; srv := srv s; logged := logged s |}.

(** [log.Printf("Received message from %s: '%s'. History now has %d messages.", ...)] *)
Definition log_Printf (name message : string) (n : nat) (s : state) : state :=
  {| mem := mem s; srv := srv s;
     logged := logged s ++
       ["Received message from " +:+ name +:+ ": '" +:+ message +:+
        "'. History now has " +:+ pretty n +:+ " messages."] |}.

Definition format_line (args : MessageArgs) : string :=
  Name args +:+ ": " +:+ Message args.

Section Server.

Variable growcap : nat → nat → nat.

(** [func (s *ChatServer) SendMessage(args *MessageArgs, reply *HistoryReply) error] *)
Definition SendMessage (args : MessageArgs) (reply : HistoryReply) (s : state)
  : option (state * HistoryReply * error) :=
  s ← Lock s;
  let formattedMsg := Name args +:+ ": " +:+ Message args in
  '(sl, m) ← append growcap (history (srv s)) formattedMsg (mem s);
  let s := set_history sl m s in
  let s := log_Printf (Name args) (Message args) (s_len (history (srv s))) s in
  let '(r, m) := make (s_len (history (srv s))) (mem s) in
  let reply := {| History := r |} in
  '(_, m) ← copy (History reply) (history (srv s)) m;
  s ← Unlock (set_mem m s);
  Some (s, reply, None).

(** [func (s *ChatServer) GetHistory(_ *struct{}, reply *HistoryReply) error] *)
Definition GetHistory (reply : HistoryReply) (s : state)
  : option (state * HistoryReply * error) :=
  s ← Lock s;
  let '(r, m) := make (s_len (history (srv s))) (mem s) in
  let reply := {| History := r |} in
  '(_, m) ← copy (History reply) (history (srv s)) m;
  s ← Unlock (set_mem m s);
  Some (s, reply, None).

End Server.

(** The transcript: the lines of [s.history]. *)
Definition transcript (s : state) : option (list string) :=
  elems (history (srv s)) (mem s).

(** Well-formed headers: the nil slice, or [cap] cells of allocated memory
    of which the first [len] are in use. *)
Definition slice_ok (sl : slice) (h : heap) : Prop :=
  match s_ptr sl with
  | None => s_len sl = 0 ∧ s_cap sl = 0
  | Some l =>
      match h !! l with
      | Some arr => s_len sl ≤ s_cap sl ∧ s_cap sl = length arr
      | None => False
      end
  end.

(** The states between two calls: the mutex is free and [s.history] is a
    well-formed slice. *)
Definition wf (s : state) : Prop :=
  mu (srv s) = false ∧ slice_ok (history (srv s)) (mem s).

(** ** Calls, one after the other *)

(** The two remote operations.  The RPC layer hands each call a new, zero
    [HistoryReply]. *)
Inductive op := Submit (sender text : string) | Fetch.

Definition line_of (o : op) : list string :=
  match o with
  | Submit sender text => [sender +:+ ": " +:+ text]
  | Fetch => []
  end.

(** What a holder of a snapshot can do next: issue a further call, or write
    into the snapshot it was given ([snap[i] = v]). *)
Inductive action := Call (o : op) | Poke (i : nat) (v : string).

Definition calls_of (acts : list action) : list op :=
  omap (λ a, match a with Call o => Some o | Poke _ _ => None end) acts.

Fixpoint poked (acts : list action) (v : list string) : list string :=
  match acts with
  | [] => v
  | Call _ :: acts => poked acts v
  | Poke i x :: acts => poked acts (<[i := x]> v)
  end.

Section Calls.

Variable growcap : nat → nat → nat.

Definition call (o : op) (s : state) : option (state * HistoryReply * error) :=
  match o with
  | Submit sender text =>
      SendMessage growcap {| Name := sender; Message := text |} zero_reply s
  | Fetch => GetHistory zero_reply s
  end.

Fixpoint run (ops : list op) (s : state) : option state :=
  match ops with
  | [] => Some s
  | o :: ops => '(s', _, _) ← call o s; run ops s'
  end.

Fixpoint act (snap : slice) (acts : list action) (s : state) : option state :=
  match acts with
  | [] => Some s
  | Call o :: acts => '(s', _, _) ← call o s; act snap acts s'
  | Poke i v :: acts => m ← store snap i v (mem s); act snap acts (set_mem m s)
  end.

End Calls.

(** A growth policy to evaluate the model with: capacities double. *)
Definition doubling (oldcap newLen : nat) : nat := 2 * oldcap.

(** The server after the calls [ops], one after the other, from its start. *)
Definition after (ops : list op) : state := default init (run doubling ops init).

(** The server and the reply after one more call [o] on [s]. *)
Definition answered (o : op) (s : state) : state * HistoryReply :=
  match call doubling o s with
  | Some (s', reply, _) => (s', reply)
  | None => (s, zero_reply)
  end.

(** ** Calls served concurrently

    [go rpc.ServeConn(conn)] serves every connection in a goroutine of its
    own, so handlers run concurrently over the one [ChatServer].  A goroutine is the call it serves,
    the statement it is about to execute and its locals; a schedule picks
    which goroutine executes its next statement.  The assignment
    [s.history = append(s.history, formattedMsg)] is two steps, the read of
    the operand and the store of the result, so that an update lost between
    them would show. *)

Inductive label :=
  | at_Lock | at_format | at_load | at_store | at_log
  | at_make | at_copy | at_return | at_done.

Record goroutine := {
  pc : label;
  g_req : op;
  formattedMsg : string;
  g_tmp : slice;
  g_reply : HistoryReply;
  g_ret : option error
}.

Definition spawn (o : op) : goroutine :=
  {| pc := at_Lock; g_req := o; formattedMsg := ""; g_tmp := nil_slice;
     g_reply := zero_reply; g_ret := None |}.

Definition goto (l : label) (g : goroutine) : goroutine :=
  {| pc := l; g_req := g_req g; formattedMsg := formattedMsg g; g_tmp := g_tmp g;
     g_reply := g_reply g; g_ret := g_ret g |}.

Definition set_msg (x : string) (g : goroutine) : goroutine :=
  {| pc := pc g; g_req := g_req g; formattedMsg := x; g_tmp := g_tmp g;
     g_reply := g_reply g; g_ret := g_ret g |}.

Definition set_tmp (sl : slice) (g : goroutine) : goroutine :=
  {| pc := pc g; g_req := g_req g; formattedMsg := formattedMsg g; g_tmp := sl;
     g_reply := g_reply g; g_ret := g_ret g |}.

Definition set_reply (r : HistoryReply) (g : goroutine) : goroutine :=
  {| pc := pc g; g_req := g_req g; formattedMsg := formattedMsg g; g_tmp := g_tmp g;
     g_reply := r; g_ret := g_ret g |}.

Definition set_ret (e : error) (g : goroutine) : goroutine :=
  {| pc := pc g; g_req := g_req g; formattedMsg := formattedMsg g; g_tmp := g_tmp g;
     g_reply := g_reply g; g_ret := Some e |}.

Record config := { shared : state; pool : list goroutine }.

Section Goroutines.

Variable growcap : nat → nat → nat.

(** The next statement of [g].  [None]: [g] cannot move (the mutex is held
    by another, or [g] has returned). *)
Definition stmt (g : goroutine) (s : state) : option (state * goroutine) :=
  match pc g with
  | at_Lock =>
      s ← Lock s;
      Some (s, goto (match g_req g with Submit _ _ => at_format | Fetch => at_make end) g)
  | at_format =>
      match g_req g with
      | Submit sender text =>
          Some (s, goto at_load (set_msg (sender +:+ ": " +:+ text) g))
      | Fetch => None
      end
  | at_load => Some (s, goto at_store (set_tmp (history (srv s)) g))
  | at_store =>
      '(sl, m) ← append growcap (g_tmp g) (formattedMsg g) (mem s);
      Some (set_history sl m s, goto at_log g)
  | at_log =>
      match g_req g with
      | Submit sender text =>
          Some (log_Printf sender text (s_len (history (srv s))) s, goto at_make g)
      | Fetch => None
      end
  | at_make =>
      let '(r, m) := make (s_len (history (srv s))) (mem s) in
      Some (set_mem m s, goto at_copy (set_reply {| History := r |} g))
  | at_copy =>
      '(_, m) ← copy (History (g_reply g)) (history (srv s)) (mem s);
      Some (set_mem m s, goto at_return g)
  | at_return =>
      s ← Unlock s;
      Some (s, goto at_done (set_ret None g))
  | at_done => None
  end.

Definition step (t : nat) (c : config) : option config :=
  g ← pool c !! t;
  '(s, g') ← stmt g (shared c);
  Some {| shared := s; pool := <[t := g']> (pool c) |}.

Fixpoint exec (sched : list nat) (c : config) : option config :=
  match sched with
  | [] => Some c
  | t :: sched => c' ← step t c; exec sched c'
  end.

(** [n] statements of one goroutine in a row. *)
Fixpoint stmts (n : nat) (g : goroutine) (s : state) : option (state * goroutine) :=
  match n with
  | 0 => Some (s, g)
  | S n => '(s', g') ← stmt g s; stmts n g' s'
  end.

End Goroutines.

(** How many of the calls are [Submit] calls. *)
Fixpoint submits (reqs : list op) : nat :=
  match reqs with
  | [] => 0
  | Submit _ _ :: reqs => S (submits reqs)
  | Fetch :: reqs => submits reqs
  end.

(** The calls [reqs] arrive together at a server in state [s]. *)
Definition serve (s : state) (reqs : list op) : config :=
  {| shared := s; pool := spawn <$> reqs |}.

(** The schedule that serves the calls one after the other: the handler of
    [SendMessage] is eight steps, that of [GetHistory] four. *)
Definition steps_of (o : op) : nat :=
  match o with Submit _ _ => 8 | Fetch => 4 end.

Fixpoint sequential (t : nat) (reqs : list op) : list nat :=
  match reqs with
  | [] => []
  | o :: reqs => replicate (steps_of o) t ++ sequential (S t) reqs
  end.

Definition returned (g : goroutine) : bool :=
  match pc g with at_done => true | _ => false end.

Definition finished (c : config) : bool := forallb returned (pool c).

(** *** What holds of every configuration a schedule can reach *)

(** A goroutine that is not between its [Lock] and its [Unlock]. *)
Definition idle (g : goroutine) : Prop := pc g = at_Lock ∨ pc g = at_done.

(** The lines a goroutine has put into the transcript so far. *)
Definition contrib (g : goroutine) : list string :=
  match pc g with
  | at_Lock | at_format | at_load | at_store => []
  | at_log | at_make | at_copy | at_return | at_done => line_of (g_req g)
  end.

(** What the goroutine that holds the mutex knows at each statement. *)
Definition critical (g : goroutine) (s : state) : Prop :=
  match pc g with
  | at_Lock | at_done => False
  | at_load => line_of (g_req g) = [formattedMsg g]
  | at_store => line_of (g_req g) = [formattedMsg g] ∧ g_tmp g = history (srv s)
  | at_copy =>
      ∃ lr, s_ptr (History (g_reply g)) = Some lr
            ∧ s_ptr (history (srv s)) ≠ Some lr
  | at_format | at_log | at_make | at_return => True
  end.

Definition others_idle (holder : option nat) (gs : list goroutine) : Prop :=
  ∀ t g, gs !! t = Some g → Some t ≠ holder → idle g.

(** The invariant of the pool, for a server that started the pool with the
    transcript [h0]: the transcript is [h0] and the lines contributed so
    far, in some order; at most one goroutine is between [Lock] and
    [Unlock], and it is one exactly when the mutex is held. *)
Definition inv (h0 : list string) (c : config) : Prop :=
  slice_ok (history (srv (shared c))) (mem (shared c))
  ∧ (∃ h, transcript (shared c) = Some h ∧ h ≡ₚ h0 ++ (pool c ≫= contrib))
  ∧ if mu (srv (shared c))
    then ∃ t g, pool c !! t = Some g ∧ critical g (shared c)
                ∧ others_idle (Some t) (pool c)
    else others_idle None (pool c).

(** ** client.go *)

(** [strings.TrimSpace] of the standard library.  Its loops over ASCII bytes
    are modelled as they are written; the two calls it makes when it meets a
    byte of a multi-byte rune, [TrimFunc(s, unicode.IsSpace)] and
    [TrimRightFunc(s, unicode.IsSpace)], are parameters. *)

Definition asciiSpace (c : Ascii.ascii) : bool :=
  bool_decide (Ascii.nat_of_ascii c ∈ [9; 10; 11; 12; 13; 32]).

Definition RuneSelf : nat := 128.

Inductive scan := Stop (rest : list Ascii.ascii) | NonASCII (rest : list Ascii.ascii).

(** One of the two loops: skip ASCII white space from the front of [s]. *)
Fixpoint skip (s : list Ascii.ascii) : scan :=
  match s with
  | [] => Stop []
  | c :: s' =>
      if decide (RuneSelf ≤ Ascii.nat_of_ascii c) then NonASCII s
      else if asciiSpace c then skip s' else Stop s
  end.

(** The line feed that [Println] adds. *)
Definition nl : string := String.String (Ascii.ascii_of_nat 10) "".

Section Client.

Variable TrimFunc_IsSpace : string → string.
Variable TrimRightFunc_IsSpace : string → string.
Variable growcap : nat → nat → nat.

Definition TrimSpace (s : string) : string :=
  match skip (String.list_ascii_of_string s) with
  | NonASCII t => TrimFunc_IsSpace (String.string_of_list_ascii t)
  | Stop t =>
      (* the second loop runs from the end of [s[start:]] *)
      match skip (reverse t) with
      | NonASCII r => TrimRightFunc_IsSpace (String.string_of_list_ascii (reverse r))
      | Stop r => String.string_of_list_ascii (reverse r)
      end
  end.

(** What one round of the chat loop decides, given what
    [reader.ReadString('\n')] returned. *)
Inductive decision :=
  | Fatal (what : string)
  | Break
  | Send (args : MessageArgs).

Definition chat_round (name : string) (rd : string * error) : decision :=
  let '(message, err) := rd in
  match err with
  | Some e => Fatal ("Error reading message:" +:+ e)
  | None =>
      let message := TrimSpace message in
      if decide (message = "exit") then Break
      else Send {| Name := name; Message := message |}
  end.

(** The chat loop against the server it is connected to.  [reads] is what
    the successive [ReadString] calls return; when it is used up the
    reader is at end of input.  The result is what was printed, the
    server's state and whether the client left by [break] ([None]) or by
    [log.Fatal]. *)
Fixpoint chat_loop (name : string) (reads : list (string * error)) (s : state)
  : list string * state * option string :=
  let prompt := "Enter message (or 'exit' to quit): " in
  match reads with
  | [] => ([prompt], s, Some "Error reading message:EOF")
  | rd :: reads =>
      match chat_round name rd with
      | Fatal what => ([prompt], s, Some what)
      | Break => ([prompt], s, None)
      | Send args =>
          match SendMessage growcap args zero_reply s with
          | None => ([prompt], s, Some "RPC error:")
          | Some (s', reply, _) =>
              let '(out, s'', status) := chat_loop name reads s' in
              (prompt :: (nl +:+ "--- Chat History ---" +:+ nl)
                 :: ((λ msg, msg +:+ nl) <$>
                       default [] (elems (History reply) (mem s')))
                 ++ ("------------------" +:+ nl +:+ nl)
                 :: out,
               s'', status)
          end
      end
  end.

(** [main] of the client once [rpc.Dial] has succeeded: the name is read
    and trimmed, then the chat loop runs; [Goodbye!] is printed after a
    [break] only. *)
Definition client_main (reads : list (string * error)) (s : state)
  : list string * state * option string :=
  match reads with
  | [] => (["Enter your name: "], s, Some "Error reading name:EOF")
  | (_, Some e) :: _ => (["Enter your name: "], s, Some ("Error reading name:" +:+ e))
  | (name, None) :: reads =>
      let name := TrimSpace name in
      let '(out, s', status) := chat_loop name reads s in
      ("Enter your name: "
         :: ("Welcome, " +:+ name +:+ "! You can start chatting." +:+ nl)
         :: out ++ match status with None => ["Goodbye!" +:+ nl] | Some _ => [] end,
       s', status)
  end.

End Client.

(** An ASCII byte that is not white space. *)
Definition graphic (c : Ascii.ascii) : bool :=
  bool_decide (Ascii.nat_of_ascii c < RuneSelf) && negb (asciiSpace c).

(** Bytes that begin and end with a graphic ASCII byte, or no bytes at all:
    what is left of an ASCII line when the white space around it is gone. *)
Definition bare (core : list Ascii.ascii) : bool :=
  match core, last core with
  | a :: _, Some z => graphic a && graphic z
  | _, _ => true
  end.

(** ** Further vocabulary for what the code guarantees *)

(** The audit lines that [log.Printf] writes for the calls [ops] when the
    transcript has [n] lines before them: one per [Submit], with the length
    of the transcript after it. *)
Fixpoint audit (n : nat) (ops : list op) : list string :=
  match ops with
  | [] => []
  | Submit sender text :: ops =>
      ("Received message from " +:+ sender +:+ ": '" +:+ text +:+
       "'. History now has " +:+ pretty (S n) +:+ " messages.")
      :: audit (S n) ops
  | Fetch :: ops => audit n ops
  end.

(** The statements a goroutine still has to execute before it has
    returned. *)
Definition todo (g : goroutine) : nat :=
  match pc g with
  | at_Lock => steps_of (g_req g)
  | at_format => 7
  | at_load => 6
  | at_store => 5
  | at_log => 4
  | at_make => 3
  | at_copy => 2
  | at_return => 1
  | at_done => 0
  end.

(** A goroutine between its [Lock] and its [Unlock]. *)
Definition busy (g : goroutine) : bool :=
  match pc g with at_Lock | at_done => false | _ => true end.

(** The reply of [g] holds a snapshot: an array of its own with lines [v],
    which are the transcript [h0] the pool started with, then more, up to
    the call's own line when it is a [Submit], and a prefix of the
    transcript [h] as it is now. *)
Definition reply_ok (h0 h : list string) (s : state) (g : goroutine) : Prop :=
  ∃ lr v, s_ptr (History (g_reply g)) = Some lr
          ∧ mem s !! lr = Some v
          ∧ s_len (History (g_reply g)) = length v
          ∧ h0 `prefix_of` v ∧ v `prefix_of` h
          ∧ line_of (g_req g) `suffix_of` v
          ∧ s_ptr (history (srv s)) ≠ Some lr.

(** What holds of the goroutine [t] of the pool [gs] at each statement,
    about its request and its reply. *)
Definition local_ok (h0 h : list string) (s : state) (gs : list goroutine)
    (t : nat) (g : goroutine) : Prop :=
  match pc g with
  | at_Lock => g_reply g = zero_reply
  | at_format | at_load | at_store =>
      g_reply g = zero_reply ∧ ∃ sender text, g_req g = Submit sender text
  | at_log =>
      g_reply g = zero_reply ∧ (∃ sender text, g_req g = Submit sender text)
      ∧ line_of (g_req g) `suffix_of` h
  | at_make => g_reply g = zero_reply ∧ line_of (g_req g) `suffix_of` h
  | at_copy =>
      ∃ lr, s_ptr (History (g_reply g)) = Some lr
            ∧ mem s !! lr = Some (replicate (length h) "")
            ∧ s_len (History (g_reply g)) = length h
            ∧ line_of (g_req g) `suffix_of` h
            ∧ s_ptr (history (srv s)) ≠ Some lr
            ∧ ∀ t' g', gs !! t' = Some g' → t' ≠ t →
                       s_ptr (History (g_reply g')) ≠ Some lr
  | at_return => reply_ok h0 h s g
  | at_done => reply_ok h0 h s g ∧ g_ret g = Some None
  end.

(** The second invariant of the pool: the transcript extends [h0], and
    every goroutine is as [local_ok] says. *)
Definition replies_inv (h0 : list string) (c : config) : Prop :=
  ∃ h, transcript (shared c) = Some h ∧ h0 `prefix_of` h
       ∧ ∀ t g, pool c !! t = Some g → local_ok h0 h (shared c) (pool c) t g.

(** ** Facts about the slice primitives *)

Arguments alloc : simpl never.
Arguments make : simpl never.
Arguments copy : simpl never.
Arguments elems : simpl never.

Lemma alloc_spec (arr : list string) (h : heap) l h' :
  alloc arr h = (l, h') → h !! l = None ∧ h' = <[l := arr]> h.
Proof.
  unfold alloc. intros [= <- <-]. split; [|done].
  apply not_elem_of_dom, is_fresh.
Qed.

Lemma elems_insert_ne sl l arr (h : heap) :
  s_ptr sl ≠ Some l → elems sl (<[l := arr]> h) = elems sl h.
Proof.
  unfold elems. destruct (s_ptr sl) as [l'|]; [|done].
  intros Hne. rewrite lookup_insert_ne; [done|congruence].
Qed.

Lemma elems_length sl (h : heap) v : elems sl h = Some v → length v = s_len sl.
Proof.
  unfold elems. destruct (s_ptr sl) as [l|].
  - destruct (h !! l) as [arr|]; simpl; [|done].
    case_decide; [|done]. intros [= <-]. rewrite length_take. lia.
  - case_decide; [|done]. intros [= <-]. done.
Qed.

Lemma slice_ok_elems sl (h : heap) : slice_ok sl h → is_Some (elems sl h).
Proof.
  unfold slice_ok, elems. destruct (s_ptr sl) as [l|].
  - destruct (h !! l) as [arr|]; simpl; [|done].
    intros [? ?]. rewrite decide_True; [eauto|lia].
  - intros [-> _]. simpl. eauto.
Qed.

Lemma slice_ok_insert_ne sl l arr (h : heap) :
  s_ptr sl ≠ Some l → slice_ok sl h → slice_ok sl (<[l := arr]> h).
Proof.
  unfold slice_ok. destruct (s_ptr sl) as [l'|]; [|done].
  intros Hne. rewrite lookup_insert_ne; [done|congruence].
Qed.

Lemma slice_ok_ptr_fresh sl (h : heap) l :
  slice_ok sl h → h !! l = None → s_ptr sl ≠ Some l.
Proof.
  unfold slice_ok. intros Hok Hl Hp. by rewrite Hp, Hl in Hok.
Qed.

Lemma make_spec n (h : heap) sl h' :
  make n h = (sl, h') →
  ∃ l, h !! l = None ∧ sl = Slice (Some l) n n ∧ h' = <[l := replicate n ""]> h.
Proof.
  unfold make. destruct (alloc (replicate n "") h) as [l h1] eqn:Ha. intros [= <- <-].
  apply alloc_spec in Ha as [? ->]. eauto.
Qed.

Lemma copy_fresh_spec n l (h : heap) src v :
  s_ptr src ≠ Some l → elems src h = Some v → s_len src = n →
  copy (Slice (Some l) n n) src (<[l := replicate n ""]> h)
  = Some (n, <[l := v]> h).
Proof.
  intros Hne Hv Hn. unfold copy. simpl.
  rewrite elems_insert_ne, Hv by done. simpl.
  rewrite lookup_insert_eq. simpl.
  rewrite length_replicate, decide_True by lia.
  rewrite insert_insert_eq. apply elems_length in Hv.
  rewrite Hn, Nat.min_id, take_ge, drop_ge by (rewrite ?length_replicate; lia).
  by rewrite app_nil_r.
Qed.

Section Growth_facts.

Variable growcap : nat → nat → nat.

Lemma append_spec sl x (h : heap) v :
  slice_ok sl h → elems sl h = Some v →
  ∃ sl' h', append growcap sl x h = Some (sl', h')
    ∧ slice_ok sl' h'
    ∧ elems sl' h' = Some (v ++ [x])
    ∧ (∀ l a, h !! l = Some a → s_ptr sl ≠ Some l →
         h' !! l = Some a ∧ s_ptr sl' ≠ Some l)
    ∧ (∀ l, is_Some (h !! l) → is_Some (h' !! l)).
Proof.
  intros Hok Hv. unfold append.
  destruct (decide (S (s_len sl) ≤ s_cap sl)) as [Hroom|Hfull].
  - unfold slice_ok in Hok. unfold elems in Hv.
    destruct (s_ptr sl) as [l|] eqn:Hp; [|lia].
    destruct (h !! l) as [arr|] eqn:Harr; [|done]. simpl in *.
    destruct Hok as [Hle Hcap].
    destruct (decide (s_len sl ≤ length arr)) as [_|]; [|lia].
    injection Hv as <-. rewrite Harr. simpl. rewrite decide_True by lia.
    eexists _, _. split; [done|]. repeat split.
    + unfold slice_ok. simpl. rewrite lookup_insert_eq, length_insert. lia.
    + unfold elems. simpl. rewrite lookup_insert_eq. simpl.
      rewrite length_insert, decide_True by lia. f_equal.
      rewrite (take_S_r _ _ x) by (apply list_lookup_insert_eq; lia).
      by rewrite take_insert_ge by lia.
    + rewrite lookup_insert_ne; [done|congruence].
    + done.
    + intros l' Hl'. destruct (decide (l = l')) as [->|].
      * rewrite lookup_insert_eq. eauto.
      * by rewrite lookup_insert_ne.
  - rewrite Hv. cbn [mbind option_bind].
    lazymatch goal with
    | |- context [alloc ?a h] => destruct (alloc a h) as [l h'] eqn:Ha
    end.
    apply alloc_spec in Ha as [Hl ->].
    pose proof (elems_length _ _ _ Hv) as Hlen.
    eexists _, _. split; [done|]. repeat split.
    + unfold slice_ok. simpl. rewrite lookup_insert_eq.
      rewrite length_app. simpl. rewrite length_replicate. lia.
    + unfold elems. simpl. rewrite lookup_insert_eq. simpl.
      rewrite decide_True by (rewrite length_app; simpl; lia). f_equal.
      rewrite cons_middle, (assoc_L (++)).
      apply take_app_length'. rewrite length_app. simpl. lia.
    + rewrite lookup_insert_ne; [done|congruence].
    + simpl. congruence.
    + intros l' Hl'. destruct (decide (l = l')) as [->|].
      * rewrite lookup_insert_eq. eauto.
      * by rewrite lookup_insert_ne.
Qed.

End Growth_facts.

Lemma elems_whole l (h : heap) v n :
  h !! l = Some v → n = length v → elems (Slice (Some l) n n) h = Some v.
Proof.
  intros Hl ->. unfold elems. simpl. rewrite Hl. simpl.
  rewrite decide_True by lia. by rewrite firstn_all.
Qed.

Section Server_facts.

Variable growcap : nat → nat → nat.

(** What one [SendMessage] does to a well-formed state. *)
Lemma SendMessage_spec args reply s h :
  wf s → transcript s = Some h →
  ∃ s' lr,
    SendMessage growcap args reply s
    = Some (s', {| History := Slice (Some lr) (S (length h)) (S (length h)) |}, None)
    ∧ wf s'
    ∧ transcript s' = Some (h ++ [format_line args])
    ∧ mem s !! lr = None
    ∧ mem s' !! lr = Some (h ++ [format_line args])
    ∧ s_ptr (history (srv s')) ≠ Some lr
    ∧ (∀ l a, mem s !! l = Some a → s_ptr (history (srv s)) ≠ Some l →
         mem s' !! l = Some a ∧ s_ptr (history (srv s')) ≠ Some l).
Proof.
  intros [Hmu Hok] Hh. unfold transcript in Hh.
  destruct (append_spec growcap _ (format_line args) _ _ Hok Hh)
    as (sl' & h1 & Happ & Hok1 & Hel1 & Hframe & Hmono).
  unfold SendMessage, Lock. rewrite Hmu. cbn [mbind option_bind].
  cbn [srv mem history].
  unfold format_line in Happ. rewrite Happ. cbn [mbind option_bind].
  cbn [set_history log_Printf srv mem history].
  destruct (make (s_len sl') h1) as [r h2] eqn:Hmk.
  apply make_spec in Hmk as (lr & Hlr & -> & ->).
  pose proof (elems_length _ _ _ Hel1) as Hlen. rewrite length_app in Hlen.
  simpl in Hlen.
  cbn [History].
  rewrite (copy_fresh_spec _ _ _ _ _ (slice_ok_ptr_fresh _ _ _ Hok1 Hlr) Hel1 eq_refl).
  cbn [mbind option_bind]. unfold Unlock. cbn [set_mem srv mu mem history logged].
  assert (mem s !! lr = None) as Hlr0.
  { destruct (mem s !! lr) eqn:E; [|done].
    destruct (Hmono lr) as [? ?]; [eauto|congruence]. }
  exists {| mem := <[lr := h ++ [format_line args]]> h1;
            srv := {| history := sl'; mu := false |};
            logged := logged s ++
              ["Received message from " +:+ Name args +:+ ": '" +:+ Message args +:+
               "'. History now has " +:+ pretty (s_len sl') +:+ " messages."] |}, lr.
  split.
  { rewrite <- Hlen, Nat.add_1_r. done. }
  cbn [mem srv history].
  pose proof (slice_ok_ptr_fresh _ _ _ Hok1 Hlr) as Hne.
  repeat split.
  - by apply slice_ok_insert_ne.
  - unfold transcript. cbn [mem srv history]. by rewrite elems_insert_ne.
  - done.
  - by rewrite lookup_insert_eq.
  - done.
  - destruct (Hframe l a) as [? ?]; [done..|].
    rewrite lookup_insert_ne; [done|congruence].
  - by destruct (Hframe l a).
Qed.

(** What one [GetHistory] does to a well-formed state: a new array holding
    a copy of the transcript, and nothing else. *)
Lemma GetHistory_spec reply s h :
  wf s → transcript s = Some h →
  ∃ lr,
    GetHistory reply s
    = Some ({| mem := <[lr := h]> (mem s); srv := srv s; logged := logged s |},
            {| History := Slice (Some lr) (length h) (length h) |}, None)
    ∧ mem s !! lr = None
    ∧ s_ptr (history (srv s)) ≠ Some lr.
Proof.
  intros [Hmu Hok] Hh. unfold transcript in Hh.
  unfold GetHistory, Lock. rewrite Hmu. cbn [mbind option_bind].
  cbn [srv mem history].
  destruct (make (s_len (history (srv s))) (mem s)) as [r h2] eqn:Hmk.
  apply make_spec in Hmk as (lr & Hlr & -> & ->).
  pose proof (slice_ok_ptr_fresh _ _ _ Hok Hlr) as Hne.
  cbn [History].
  rewrite (copy_fresh_spec _ _ _ _ _ Hne Hh eq_refl).
  cbn [mbind option_bind]. unfold Unlock. cbn [set_mem srv mu mem history logged].
  exists lr. rewrite (elems_length _ _ _ Hh).
  destruct s as [m [hist mu0] lg]. simpl in *. subst mu0. done.
Qed.

End Server_facts.

Section Sequential_facts.

Variable growcap : nat → nat → nat.

Lemma wf_transcript s : wf s → is_Some (transcript s).
Proof. intros [_ Hok]. by apply slice_ok_elems. Qed.

Lemma call_spec o s h :
  wf s → transcript s = Some h →
  ∃ s' lr,
    call growcap o s
    = Some (s', {| History := Slice (Some lr) (length (h ++ line_of o))
                                    (length (h ++ line_of o)) |}, None)
    ∧ wf s'
    ∧ transcript s' = Some (h ++ line_of o)
    ∧ mem s !! lr = None
    ∧ mem s' !! lr = Some (h ++ line_of o)
    ∧ s_ptr (history (srv s')) ≠ Some lr
    ∧ (∀ l a, mem s !! l = Some a → s_ptr (history (srv s)) ≠ Some l →
         mem s' !! l = Some a ∧ s_ptr (history (srv s')) ≠ Some l)
    ∧ (o = Fetch → srv s' = srv s ∧ logged s' = logged s
                   ∧ ∀ l a, mem s !! l = Some a → mem s' !! l = Some a).
Proof.
  intros Hwf Hh. destruct o as [sender text|]; simpl.
  - destruct (SendMessage_spec growcap {| Name := sender; Message := text |}
                zero_reply s h Hwf Hh) as (s' & lr & Hc & ? & ? & ? & ? & ? & ?).
    exists s', lr. rewrite length_app, Nat.add_1_r. simpl. done.
  - destruct (GetHistory_spec zero_reply s h Hwf Hh) as (lr & Hc & Hlr & Hne).
    eexists _, lr. rewrite app_nil_r. split; [exact Hc|].
    destruct Hwf as [Hmu Hok]. simpl.
    repeat split; try done.
    + by apply slice_ok_insert_ne.
    + unfold transcript. simpl. by rewrite elems_insert_ne.
    + by rewrite lookup_insert_eq.
    + rewrite lookup_insert_ne; [done|congruence].
    + intros l a Hl. rewrite lookup_insert_ne; [done|congruence].
Qed.

Lemma run_spec ops s h :
  wf s → transcript s = Some h →
  ∃ s', run growcap ops s = Some s' ∧ wf s'
        ∧ transcript s' = Some (h ++ (ops ≫= line_of)).
Proof.
  revert s h. induction ops as [|o ops IH]; intros s h Hwf Hh; simpl.
  - exists s. by rewrite app_nil_r.
  - destruct (call_spec o s h Hwf Hh) as (s1 & lr & -> & Hwf1 & Hh1 & _).
    simpl. destruct (IH s1 _ Hwf1 Hh1) as (s' & -> & ? & Hh').
    exists s'. by rewrite Hh', (assoc_L (++)).
Qed.

(** Every state the server reaches from its start is well-formed, and its
    transcript is the lines of the [Submit] calls in call order. *)
Lemma wf_init : wf init.
Proof. by repeat split. Qed.

Lemma run_init ops :
  ∃ s', run growcap ops init = Some s' ∧ wf s'
        ∧ transcript s' = Some (ops ≫= line_of).
Proof. exact (run_spec ops init [] wf_init eq_refl). Qed.

Lemma run_Fetch_spec n s :
  wf s →
  ∃ s', run growcap (replicate n Fetch) s = Some s'
        ∧ wf s'
        ∧ srv s' = srv s
        ∧ transcript s' = transcript s
        ∧ logged s' = logged s
        ∧ ∀ l a, mem s !! l = Some a → mem s' !! l = Some a.
Proof.
  revert s. induction n as [|n IH]; intros s Hwf; simpl.
  - exists s. done.
  - destruct (wf_transcript s Hwf) as [h Hh].
    destruct (call_spec Fetch s h Hwf Hh)
      as (s1 & lr & Hc & Hwf1 & Ht1 & _ & _ & _ & _ & Hf).
    destruct (Hf eq_refl) as (Hsrv & Hlog & Hmem).
    simpl in Hc. rewrite Hc. simpl.
    destruct (IH s1 Hwf1) as (s' & -> & ? & Hsrv' & Ht' & Hlog' & Hmem').
    exists s'. rewrite Ht', Ht1, Hh, app_nil_r, Hsrv', Hsrv, Hlog', Hlog.
    split_and!; try done. intros l a Hl. by apply Hmem', Hmem.
Qed.

(** A snapshot that shares no memory with [s.history] keeps its lines,
    except where its holder writes, through whatever its holder does; and
    the transcript does not see those writes. *)
Lemma act_spec snap lr acts s h arr s2 :
  wf s → transcript s = Some h →
  s_ptr snap = Some lr → mem s !! lr = Some arr → s_len snap = length arr →
  s_ptr (history (srv s)) ≠ Some lr →
  act growcap snap acts s = Some s2 →
  wf s2
  ∧ transcript s2 = Some (h ++ (calls_of acts ≫= line_of))
  ∧ elems snap (mem s2) = Some (poked acts arr).
Proof.
  revert s h arr. induction acts as [|[o|i v] acts IH];
    intros s h arr Hwf Hh Hp Harr Hlen Hne Hact; simpl in *.
  - injection Hact as <-. rewrite app_nil_r. split_and!; try done.
    unfold elems. rewrite Hp, Harr. simpl.
    rewrite decide_True by lia. by rewrite Hlen, firstn_all.
  - destruct (call_spec o s h Hwf Hh)
      as (s1 & lr1 & Hc & Hwf1 & Ht1 & _ & _ & _ & Hfr & _).
    rewrite Hc in Hact. simpl in Hact.
    destruct (Hfr lr arr Harr Hne) as [Harr1 Hne1].
    destruct (IH s1 _ arr Hwf1 Ht1 Hp Harr1 Hlen Hne1 Hact) as (? & Ht2 & ?).
    rewrite Ht2, (assoc_L (++)). done.
  - unfold store in Hact.
    destruct (decide (i < s_len snap)); [|done].
    rewrite Hp in Hact. simpl in Hact. rewrite Harr in Hact. simpl in Hact.
    rewrite decide_True in Hact by lia. simpl in Hact.
    destruct Hwf as [Hmu Hok].
    eapply (IH _ h (<[i := v]> arr)); [| | | | | |exact Hact]; simpl.
    + split; [done|]. by apply slice_ok_insert_ne.
    + unfold transcript. simpl. by rewrite elems_insert_ne.
    + done.
    + by rewrite lookup_insert_eq.
    + by rewrite length_insert.
    + done.
Qed.

End Sequential_facts.

Ltac eval_wf := vm_compute; repeat split; lia.

(** ** The service contract, call by call *)

(** C1: on every transcript state [h], [SendMessage] with sender and text
    returns a reply whose lines are [h] followed by the one new line
    [sender + ": " + text], which is the last line of the reply, and the
    transcript after the call equals the reply. *)
Theorem SendMessage_reply_extends_transcript
    (growcap : nat → nat → nat) (s : state) (h : list string)
    (sender text : string) (reply : HistoryReply) :
  wf s → transcript s = Some h →
  ∃ s' reply',
    SendMessage growcap {| Name := sender; Message := text |} reply s
    = Some (s', reply', None)
    ∧ elems (History reply') (mem s') = Some (h ++ [sender +:+ ": " +:+ text])
    ∧ last (h ++ [sender +:+ ": " +:+ text]) = Some (sender +:+ ": " +:+ text)
    ∧ transcript s' = elems (History reply') (mem s').
Proof.
  intros Hwf Hh.
  destruct (SendMessage_spec growcap {| Name := sender; Message := text |}
              reply s h Hwf Hh) as (s' & lr & Hc & _ & Ht & _ & Hlr & _).
  eexists _, _. split; [exact Hc|]. unfold format_line in *. simpl in *.
  assert (elems {| s_ptr := Some lr; s_len := S (length h); s_cap := S (length h) |}
            (mem s') = Some (h ++ [sender +:+ ": " +:+ text])) as He.
  { apply elems_whole; [done|]. rewrite length_app. simpl. lia. }
  rewrite He, Ht. by rewrite last_snoc.
Qed.

Lemma SendMessage_reply_extends_transcript_witness :
  ∃ s' reply',
    SendMessage doubling {| Name := "bob"; Message := "hello" |} zero_reply
      (after [Submit "alice" "hi"])
    = Some (s', reply', None)
    ∧ elems (History reply') (mem s') = Some (["alice: hi"] ++ ["bob" +:+ ": " +:+ "hello"])
    ∧ last (["alice: hi"] ++ ["bob" +:+ ": " +:+ "hello"]) = Some ("bob" +:+ ": " +:+ "hello")
    ∧ transcript s' = elems (History reply') (mem s').
Proof.
  apply (SendMessage_reply_extends_transcript doubling (after [Submit "alice" "hi"])
           ["alice: hi"] "bob" "hello" zero_reply).
  - eval_wf.
  - vm_compute. reflexivity.
Defined.

(** C2: the transcript is append-only.  After any single call, [Submit] or
    [Fetch], the transcript before the call is a prefix of the transcript
    after it, and along any sequence of calls the transcript only grows: what
    it was at an earlier point is a prefix of, and no longer than, what it is
    at any later point. *)
Theorem transcript_append_only
    (growcap : nat → nat → nat) (s : state) (h : list string) :
  wf s → transcript s = Some h →
  (∀ o, ∃ s' reply h',
     call growcap o s = Some (s', reply, None)
     ∧ transcript s' = Some h' ∧ h `prefix_of` h')
  ∧ (∀ ops1 ops2, ∃ s1 s2 h1 h2,
       run growcap ops1 s = Some s1 ∧ run growcap (ops1 ++ ops2) s = Some s2
       ∧ transcript s1 = Some h1 ∧ transcript s2 = Some h2
       ∧ h `prefix_of` h1 ∧ h1 `prefix_of` h2
       ∧ length h ≤ length h1 ≤ length h2).
Proof.
  intros Hwf Hh. split.
  - intros o. destruct (call_spec growcap o s h Hwf Hh) as (s' & lr & Hc & _ & Ht & _).
    eexists _, _, _. split; [exact Hc|]. split; [exact Ht|]. by apply prefix_app_r.
  - intros ops1 ops2.
    destruct (run_spec growcap ops1 s h Hwf Hh) as (s1 & Hr1 & Hwf1 & Ht1).
    destruct (run_spec growcap (ops1 ++ ops2) s h Hwf Hh) as (s2 & Hr2 & _ & Ht2).
    exists s1, s2, (h ++ (ops1 ≫= line_of)), (h ++ ((ops1 ++ ops2) ≫= line_of)).
    rewrite bind_app, (assoc_L (++)) in *.
    repeat split; try done.
    + by apply prefix_app_r.
    + by apply prefix_app_r.
    + rewrite length_app. lia.
    + rewrite (length_app (h ++ _)). lia.
Qed.

Lemma transcript_append_only_witness :
  (∀ o, ∃ s' reply h',
     call doubling o (after [Submit "alice" "hi"]) = Some (s', reply, None)
     ∧ transcript s' = Some h' ∧ ["alice: hi"] `prefix_of` h')
  ∧ (∀ ops1 ops2, ∃ s1 s2 h1 h2,
       run doubling ops1 (after [Submit "alice" "hi"]) = Some s1
       ∧ run doubling (ops1 ++ ops2) (after [Submit "alice" "hi"]) = Some s2
       ∧ transcript s1 = Some h1 ∧ transcript s2 = Some h2
       ∧ ["alice: hi"] `prefix_of` h1 ∧ h1 `prefix_of` h2
       ∧ length ["alice: hi"] ≤ length h1 ≤ length h2).
Proof.
  apply (transcript_append_only doubling (after [Submit "alice" "hi"]) ["alice: hi"]).
  - eval_wf.
  - vm_compute. reflexivity.
Defined.

(** C5: neither handler has a failure case.  On every state of the server
    between two calls, for all arguments (empty strings included) and
    whatever the reply held before, [SendMessage] and [GetHistory] both
    return, and return the [nil] error. *)
Theorem handlers_return_nil
    (growcap : nat → nat → nat) (s : state) (args : MessageArgs)
    (reply : HistoryReply) :
  wf s →
  (∃ s' reply', SendMessage growcap args reply s = Some (s', reply', None) ∧ wf s')
  ∧ (∃ s' reply', GetHistory reply s = Some (s', reply', None) ∧ wf s').
Proof.
  intros Hwf. destruct (wf_transcript s Hwf) as [h Hh]. split.
  - destruct (SendMessage_spec growcap args reply s h Hwf Hh) as (s' & lr & Hc & ? & _).
    eauto.
  - destruct (GetHistory_spec reply s h Hwf Hh) as (lr & Hc & Hlr & Hne).
    eexists _, _. split; [exact Hc|]. destruct Hwf as [? ?].
    split; [done|]. by apply slice_ok_insert_ne.
Qed.

Lemma handlers_return_nil_witness :
  (∃ s' reply', SendMessage doubling {| Name := ""; Message := "" |} zero_reply
                  (after [Submit "alice" "hi"; Fetch]) = Some (s', reply', None) ∧ wf s')
  ∧ (∃ s' reply', GetHistory zero_reply (after [Submit "alice" "hi"; Fetch])
                  = Some (s', reply', None) ∧ wf s').
Proof.
  apply (handlers_return_nil doubling (after [Submit "alice" "hi"; Fetch])
           {| Name := ""; Message := "" |} zero_reply).
  eval_wf.
Defined.

(** C6: [GetHistory] does not change the server.  After any number of
    [Fetch] calls the [ChatServer] (the [history] header and the mutex), the
    transcript and its length, the log and every array that was in memory
    are what they were. *)
Theorem Fetch_leaves_server_unchanged
    (growcap : nat → nat → nat) (s : state) (n : nat) :
  wf s →
  ∃ s', run growcap (replicate n Fetch) s = Some s'
        ∧ srv s' = srv s
        ∧ transcript s' = transcript s
        ∧ length <$> transcript s' = length <$> transcript s
        ∧ logged s' = logged s
        ∧ ∀ l a, mem s !! l = Some a → mem s' !! l = Some a.
Proof.
  intros Hwf.
  destruct (run_Fetch_spec growcap n s Hwf) as (s' & Hr & _ & Hsrv & Ht & Hlog & Hmem).
  exists s'. rewrite Ht. done.
Qed.

Lemma Fetch_leaves_server_unchanged_witness :
  ∃ s', run doubling (replicate 3 Fetch) (after [Submit "alice" "hi"]) = Some s'
        ∧ srv s' = srv (after [Submit "alice" "hi"])
        ∧ transcript s' = transcript (after [Submit "alice" "hi"])
        ∧ length <$> transcript s' = length <$> transcript (after [Submit "alice" "hi"])
        ∧ logged s' = logged (after [Submit "alice" "hi"])
        ∧ ∀ l a, mem (after [Submit "alice" "hi"]) !! l = Some a → mem s' !! l = Some a.
Proof.
  apply (Fetch_leaves_server_unchanged doubling (after [Submit "alice" "hi"]) 3).
  eval_wf.
Defined.

(** C7: reading is idempotent.  Two [Fetch] calls with no [Submit] between
    them (any number of further [Fetch] calls may come between) return
    snapshots with the same lines in the same order, hence of the same
    length; the first snapshot still holds those lines when the second is
    returned. *)
Theorem Fetch_twice_same_snapshot
    (growcap : nat → nat → nat) (s : state) (n : nat) :
  wf s →
  ∃ s1 reply1 s2 s3 reply2 lines,
    GetHistory zero_reply s = Some (s1, reply1, None)
    ∧ run growcap (replicate n Fetch) s1 = Some s2
    ∧ GetHistory zero_reply s2 = Some (s3, reply2, None)
    ∧ elems (History reply1) (mem s1) = Some lines
    ∧ elems (History reply2) (mem s3) = Some lines
    ∧ elems (History reply1) (mem s3) = Some lines
    ∧ s_len (History reply1) = s_len (History reply2).
Proof.
  intros Hwf. destruct (wf_transcript s Hwf) as [h Hh].
  destruct (call_spec growcap Fetch s h Hwf Hh)
    as (s1 & lr1 & Hc1 & Hwf1 & Ht1 & _ & Hm1 & Hne1 & _).
  rewrite app_nil_r in *. simpl in Hc1.
  destruct (run_Fetch_spec growcap n s1 Hwf1) as (s2 & Hr & Hwf2 & Hsrv & Ht2 & _ & Hmem).
  rewrite Ht1 in Ht2.
  destruct (call_spec growcap Fetch s2 h Hwf2 Ht2)
    as (s3 & lr2 & Hc2 & _ & _ & Hfresh & Hm3 & _ & _ & Hf).
  rewrite app_nil_r in *. simpl in Hc2.
  destruct (Hf eq_refl) as (_ & _ & Hmem3).
  eexists _, _, _, _, _, h.
  split; [exact Hc1|]. split; [exact Hr|]. split; [exact Hc2|]. simpl.
  repeat split.
  - by apply elems_whole.
  - by apply elems_whole.
  - apply elems_whole; [|done]. by apply Hmem3, Hmem.
Qed.

Lemma Fetch_twice_same_snapshot_witness :
  ∃ s1 reply1 s2 s3 reply2 lines,
    GetHistory zero_reply (after [Submit "alice" "hi"; Submit "bob" "hello"])
    = Some (s1, reply1, None)
    ∧ run doubling (replicate 1 Fetch) s1 = Some s2
    ∧ GetHistory zero_reply s2 = Some (s3, reply2, None)
    ∧ elems (History reply1) (mem s1) = Some lines
    ∧ elems (History reply2) (mem s3) = Some lines
    ∧ elems (History reply1) (mem s3) = Some lines
    ∧ s_len (History reply1) = s_len (History reply2).
Proof.
  apply (Fetch_twice_same_snapshot doubling
           (after [Submit "alice" "hi"; Submit "bob" "hello"]) 1).
  eval_wf.
Defined.

(** C8: [SendMessage] validates nothing.  Every pair of strings is accepted
    and appended as [Name + ": " + Message], and with the empty sender and
    the empty text the last line of the reply is [": "]. *)
Theorem SendMessage_accepts_any_strings
    (growcap : nat → nat → nat) (s : state) (args : MessageArgs) :
  wf s →
  (∃ s' reply lines,
     SendMessage growcap args zero_reply s = Some (s', reply, None)
     ∧ elems (History reply) (mem s') = Some lines
     ∧ last lines = Some (Name args +:+ ": " +:+ Message args))
  ∧ (∃ s' reply lines,
       SendMessage growcap {| Name := ""; Message := "" |} zero_reply s
       = Some (s', reply, None)
       ∧ elems (History reply) (mem s') = Some lines
       ∧ last lines = Some ": ").
Proof.
  intros Hwf. destruct (wf_transcript s Hwf) as [h Hh].
  assert (∀ a, ∃ s' reply lines,
     SendMessage growcap a zero_reply s = Some (s', reply, None)
     ∧ elems (History reply) (mem s') = Some lines
     ∧ last lines = Some (Name a +:+ ": " +:+ Message a)) as Hany.
  { intros a.
    destruct (SendMessage_spec growcap a zero_reply s h Hwf Hh)
      as (s' & lr & Hc & _ & _ & _ & Hlr & _).
    eexists _, _, _. split; [exact Hc|]. split.
    - apply elems_whole; [exact Hlr|]. rewrite length_app. simpl. lia.
    - by rewrite last_snoc. }
  split; [apply Hany|apply (Hany {| Name := ""; Message := "" |})].
Qed.

Lemma SendMessage_accepts_any_strings_witness :
  (∃ s' reply lines,
     SendMessage doubling {| Name := " "; Message := "" |} zero_reply
       (after [Submit "alice" "hi"]) = Some (s', reply, None)
     ∧ elems (History reply) (mem s') = Some lines
     ∧ last lines = Some (" " +:+ ": " +:+ ""))
  ∧ (∃ s' reply lines,
       SendMessage doubling {| Name := ""; Message := "" |} zero_reply
         (after [Submit "alice" "hi"]) = Some (s', reply, None)
       ∧ elems (History reply) (mem s') = Some lines
       ∧ last lines = Some ": ").
Proof.
  apply (SendMessage_accepts_any_strings doubling (after [Submit "alice" "hi"])
           {| Name := " "; Message := "" |}).
  eval_wf.
Defined.

(** C10: on the server as [main] creates it, before any [Submit],
    [GetHistory] returns the [nil] error and a snapshot without lines, of
    length 0. *)
Theorem Fetch_on_new_server (reply : HistoryReply) :
  ∃ s' reply',
    GetHistory reply init = Some (s', reply', None)
    ∧ elems (History reply') (mem s') = Some []
    ∧ s_len (History reply') = 0.
Proof.
  assert (wf init) as Hwf by (by repeat split).
  destruct (GetHistory_spec reply init [] Hwf eq_refl) as (lr & Hc & _).
  eexists _, _. split; [exact Hc|]. simpl. split; [|done].
  apply elems_whole; [|done]. by rewrite lookup_insert_eq.
Qed.

(** C4: every snapshot is a copy, not a reference into the transcript.
    Let a call, [Submit] or [Fetch], return a reply with the lines [lines],
    and let the holder of the reply then do anything: further calls, and
    writes [snap[i] = v] into the snapshot.  Then the snapshot holds [lines]
    changed by the holder's own writes only, so no later call changes it;
    and the transcript is what the same calls produce without the writes. *)
Theorem snapshots_are_copies
    (growcap : nat → nat → nat) (s : state) (o : op) (s1 : state)
    (reply : HistoryReply) (e : option string) (lines : list string)
    (acts : list action) (s2 : state) :
  wf s →
  call growcap o s = Some (s1, reply, e) →
  elems (History reply) (mem s1) = Some lines →
  act growcap (History reply) acts s1 = Some s2 →
  elems (History reply) (mem s2) = Some (poked acts lines)
  ∧ (∀ ops, acts = Call <$> ops → elems (History reply) (mem s2) = Some lines)
  ∧ (∃ s2', run growcap (calls_of acts) s1 = Some s2'
            ∧ transcript s2 = transcript s2').
Proof.
  intros Hwf Hc Hl Hact. destruct (wf_transcript s Hwf) as [h Hh].
  destruct (call_spec growcap o s h Hwf Hh)
    as (s1' & lr & Hc' & Hwf1 & Ht1 & _ & Hm1 & Hne1 & _).
  rewrite Hc in Hc'. injection Hc' as -> -> ->. cbn [History] in *.
  rewrite (elems_whole _ _ _ _ Hm1 eq_refl) in Hl. injection Hl as <-.
  destruct (act_spec growcap (Slice (Some lr) (length (h ++ line_of o))
                                 (length (h ++ line_of o)))
              lr acts s1' _ _ s2 Hwf1 Ht1 eq_refl Hm1 eq_refl Hne1 Hact)
    as (_ & Ht2 & He2).
  split; [exact He2|]. split.
  - intros ops ->. rewrite He2. f_equal. clear.
    generalize (h ++ line_of o). induction ops as [|o' ops IH]; intros v; simpl; auto.
  - destruct (run_spec growcap (calls_of acts) s1' _ Hwf1 Ht1) as (s2' & Hr & _ & Ht2').
    exists s2'. by rewrite Ht2, Ht2'.
Qed.

Lemma snapshots_are_copies_witness :
  let s := after [Submit "alice" "hi"] in
  let s1 := (answered (Submit "bob" "hello") s).1 in
  let reply := (answered (Submit "bob" "hello") s).2 in
  let lines := ["alice: hi"; "bob: hello"] in
  let acts := [Poke 0 "mallory: boo"; Call (Submit "carol" "hey"); Call Fetch;
               Poke 1 ""; Call (Submit "dave" "yo")] in
  let s2 := default init (act doubling (History reply) acts s1) in
  elems (History reply) (mem s2) = Some (poked acts lines)
  ∧ (∀ ops, acts = Call <$> ops → elems (History reply) (mem s2) = Some lines)
  ∧ (∃ s2', run doubling (calls_of acts) s1 = Some s2'
            ∧ transcript s2 = transcript s2').
Proof.
  intros s s1 reply lines acts s2.
  apply (snapshots_are_copies doubling s (Submit "bob" "hello") s1 reply None lines acts s2).
  - eval_wf.
  - vm_compute. reflexivity.
  - vm_compute. reflexivity.
  - vm_compute. reflexivity.
Defined.

(** ** Calls served concurrently: the invariant *)

Lemma copy_frame dst src (h : heap) n m sl lr :
  copy dst src h = Some (n, m) → s_ptr dst = Some lr → s_ptr sl ≠ Some lr →
  elems sl m = elems sl h ∧ (slice_ok sl h → slice_ok sl m).
Proof.
  unfold copy. intros Hc Hp Hne. rewrite Hp in Hc.
  destruct (elems src h) as [v|]; [|done]. simpl in Hc.
  destruct (h !! lr) as [arr|]; [|done]. simpl in Hc.
  case_decide; [|done]. injection Hc as <- <-.
  split; [by apply elems_insert_ne|by apply slice_ok_insert_ne].
Qed.

Lemma contrib_insert (gs : list goroutine) t g g' :
  gs !! t = Some g →
  ∃ l1 l2, gs ≫= contrib = l1 ++ contrib g ++ l2
           ∧ <[t := g']> gs ≫= contrib = l1 ++ contrib g' ++ l2.
Proof.
  intros Hg. exists (take t gs ≫= contrib), (drop (S t) gs ≫= contrib).
  split.
  - rewrite <- (take_drop_middle gs t g Hg) at 1. by rewrite bind_app, bind_cons.
  - rewrite insert_take_drop by (eapply lookup_lt_Some; eauto).
    by rewrite bind_app, bind_cons.
Qed.

Lemma contrib_insert_same (gs : list goroutine) t g g' :
  gs !! t = Some g → contrib g' = contrib g →
  <[t := g']> gs ≫= contrib = gs ≫= contrib.
Proof.
  intros Hg Hc. destruct (contrib_insert gs t g g' Hg) as (l1 & l2 & -> & ->).
  by rewrite Hc.
Qed.

Lemma contrib_insert_new (gs : list goroutine) t g g' x :
  gs !! t = Some g → contrib g = [] → contrib g' = [x] →
  <[t := g']> gs ≫= contrib ≡ₚ (gs ≫= contrib) ++ [x].
Proof.
  intros Hg Hc Hc'. destruct (contrib_insert gs t g g' Hg) as (l1 & l2 & -> & ->).
  rewrite Hc, Hc'. simpl. rewrite <- (assoc_L (++)).
  apply Permutation_app_head, Permutation_cons_append.
Qed.

Lemma others_idle_insert holder (gs : list goroutine) t g' :
  others_idle holder gs → (Some t ≠ holder → idle g') →
  others_idle holder (<[t := g']> gs).
Proof.
  intros Hid Hg' t' g1 Hl Hne. destruct (decide (t = t')) as [->|Hd].
  - apply list_lookup_insert_Some in Hl as [(_ & <- & _)|[? _]]; [auto|done].
  - rewrite list_lookup_insert_ne in Hl by done. eauto.
Qed.

Lemma others_idle_holder (gs : list goroutine) t g' :
  others_idle None gs → others_idle (Some t) (<[t := g']> gs).
Proof.
  intros Hid t' g1 Hl Hne. rewrite list_lookup_insert_ne in Hl by congruence.
  eapply Hid; [done|congruence].
Qed.

Lemma others_idle_release (gs : list goroutine) t g' :
  others_idle (Some t) gs → idle g' → others_idle None (<[t := g']> gs).
Proof.
  intros Hid Hg' t' g1 Hl _. destruct (decide (t = t')) as [->|Hd].
  - apply list_lookup_insert_Some in Hl as [(_ & <- & _)|[? _]]; [auto|done].
  - rewrite list_lookup_insert_ne in Hl by done. eapply Hid; [done|congruence].
Qed.

Lemma idle_not_critical g s : idle g → critical g s → False.
Proof. unfold critical. by intros [-> | ->]. Qed.

Section Pool_facts.

Variable growcap : nat → nat → nat.

Lemma stmt_req g s s' g' : stmt growcap g s = Some (s', g') → g_req g' = g_req g.
Proof.
  unfold stmt. intros Hs.
  destruct (pc g) eqn:Hpc, (g_req g) eqn:Hreq; simplify_option_eq; try done;
    repeat case_match; simplify_option_eq; done.
Qed.

(** Only the holder of the mutex, or a goroutine at its [Lock] when the
    mutex is free, can execute a statement. *)
Lemma step_who h0 (s : state) (gs : list goroutine) t g s' g' :
  inv h0 {| shared := s; pool := gs |} →
  gs !! t = Some g → stmt growcap g s = Some (s', g') →
  if mu (srv s)
  then critical g s ∧ others_idle (Some t) gs
  else pc g = at_Lock ∧ others_idle None gs.
Proof.
  intros (_ & _ & Hmu) Hg Hs. simpl in Hmu.
  destruct (mu (srv s)) eqn:Hm.
  - destruct Hmu as (t0 & g0 & Hg0 & Hcrit & Hidle).
    destruct (decide (t = t0)) as [->|Hne].
    + rewrite Hg in Hg0. by injection Hg0 as <-.
    + exfalso. destruct (Hidle t g Hg) as [Hpc|Hpc]; [congruence|..];
        unfold stmt, Lock in Hs; rewrite Hpc, ?Hm in Hs; done.
  - split; [|done]. destruct (Hmu t g Hg) as [Hpc|Hpc]; [done..|].
    unfold stmt in Hs. by rewrite Hpc in Hs.
Qed.

Ltac same_contrib Hg Hpc :=
  rewrite (contrib_insert_same _ _ _ _ Hg);
  [done|unfold contrib; simpl; rewrite Hpc; try done].

Ltac still_holder t :=
  exists t; eexists; split; [by apply list_lookup_insert_eq|];
  split; [|apply others_idle_insert; [done|congruence]].

Lemma stmt_inv h0 (s : state) (gs : list goroutine) t g s' g' :
  inv h0 {| shared := s; pool := gs |} →
  gs !! t = Some g → stmt growcap g s = Some (s', g') →
  inv h0 {| shared := s'; pool := <[t := g']> gs |}.
Proof.
  intros Hinv Hg Hs.
  pose proof (step_who h0 s gs t g s' g' Hinv Hg Hs) as Hwho.
  destruct Hinv as (Hok & (h & Hh & Hperm) & _). simpl in *.
  assert (t < length gs) as Hlt by (eapply lookup_lt_Some; eauto).
  unfold stmt in Hs. unfold inv. simpl.
  destruct (mu (srv s)) eqn:Hm.
  - destruct Hwho as [Hcrit Hidle]. unfold critical in Hcrit.
    destruct (pc g) eqn:Hpc; try done.
    + (* formattedMsg := args.Name + ": " + args.Message *)
      destruct (g_req g) eqn:Hreq; [|done]. injection Hs as <- <-.
      rewrite Hm. split_and!; [done| |].
      * exists h. split; [done|]. same_contrib Hg Hpc.
      * still_holder t. unfold critical. simpl. by rewrite Hreq.
    + (* the operand of append is read *)
      injection Hs as <- <-.
      rewrite Hm. split_and!; [done| |].
      * exists h. split; [done|]. same_contrib Hg Hpc.
      * still_holder t. unfold critical. simpl. done.
    + (* s.history = append(...) *)
      destruct Hcrit as [Hline Htmp]. rewrite Htmp in Hs.
      destruct (append_spec growcap _ (formattedMsg g) _ _ Hok Hh)
        as (sl' & h1 & Happ & Hok1 & Hel1 & _).
      rewrite Happ in Hs. simpl in Hs. injection Hs as <- <-. simpl.
      rewrite Hm. split_and!; [done| |].
      * exists (h ++ [formattedMsg g]). split; [done|].
        rewrite (contrib_insert_new gs t g _ (formattedMsg g) Hg).
        -- by rewrite (assoc_L (++)), Hperm.
        -- unfold contrib. by rewrite Hpc.
        -- unfold contrib. simpl. done.
      * still_holder t. unfold critical. simpl. done.
    + (* log.Printf *)
      destruct (g_req g) eqn:Hreq; [|done]. injection Hs as <- <-. simpl.
      rewrite Hm. split_and!; [done| |].
      * exists h. split; [done|]. same_contrib Hg Hpc.
      * still_holder t. unfold critical. simpl. done.
    + (* reply.History = make(...) *)
      destruct (make (s_len (history (srv s))) (mem s)) as [r m] eqn:Hmk.
      injection Hs as <- <-. simpl.
      apply make_spec in Hmk as (lr & Hlr & -> & ->).
      pose proof (slice_ok_ptr_fresh _ _ _ Hok Hlr) as Hne.
      rewrite Hm. split_and!.
      * by apply slice_ok_insert_ne.
      * exists h. split.
        -- unfold transcript. simpl. by rewrite elems_insert_ne.
        -- same_contrib Hg Hpc.
      * still_holder t. unfold critical. simpl. eauto.
    + (* copy(reply.History, s.history) *)
      destruct Hcrit as (lr & Hp & Hne).
      destruct (copy (History (g_reply g)) (history (srv s)) (mem s))
        as [[n m]|] eqn:Hcp; [|done].
      simpl in Hs. injection Hs as <- <-. simpl.
      destruct (copy_frame _ _ _ _ _ (history (srv s)) lr Hcp Hp Hne) as [Hel Hok'].
      rewrite Hm. split_and!.
      * by apply Hok'.
      * exists h. split.
        -- unfold transcript. simpl. by rewrite Hel.
        -- same_contrib Hg Hpc.
      * still_holder t. unfold critical. simpl. done.
    + (* return nil, and the deferred Unlock *)
      unfold Unlock in Hs. rewrite Hm in Hs. simpl in Hs. injection Hs as <- <-.
      simpl. split_and!; [done| |].
      * exists h. split; [done|]. same_contrib Hg Hpc.
      * apply (others_idle_release gs t); [done|]. by right.
  - destruct Hwho as [Hpc Hidle]. rewrite Hpc in Hs.
    unfold Lock in Hs. rewrite Hm in Hs. simpl in Hs. injection Hs as <- <-.
    simpl. split_and!; [done| |].
    + exists h. split; [done|]. same_contrib Hg Hpc. by destruct (g_req g).
    + exists t. eexists. split; [by apply list_lookup_insert_eq|]. split.
      * unfold critical. simpl. by destruct (g_req g).
      * by apply others_idle_holder.
Qed.

Lemma step_inv h0 t c c' :
  inv h0 c → step growcap t c = Some c' →
  inv h0 c' ∧ g_req <$> pool c' = g_req <$> pool c.
Proof.
  destruct c as [s gs]. unfold step. simpl. intros Hinv Hstep.
  destruct (gs !! t) as [g|] eqn:Hg; [|done]. simpl in Hstep.
  destruct (stmt growcap g s) as [[s' g']|] eqn:Hs; [|done].
  simpl in Hstep. injection Hstep as <-. split.
  - by eapply stmt_inv.
  - simpl. rewrite list_fmap_insert, (stmt_req _ _ _ _ Hs).
    apply list_insert_id. by rewrite list_lookup_fmap, Hg.
Qed.

Lemma exec_inv h0 sched c c' :
  inv h0 c → exec growcap sched c = Some c' →
  inv h0 c' ∧ g_req <$> pool c' = g_req <$> pool c.
Proof.
  revert c. induction sched as [|t sched IH]; intros c Hinv Hex; simpl in Hex.
  - by injection Hex as <-.
  - destruct (step growcap t c) as [c1|] eqn:Hst; [|done]. simpl in Hex.
    destruct (step_inv h0 t c c1 Hinv Hst) as [Hinv1 Hreq1].
    destruct (IH c1 Hinv1 Hex) as [? Hreq]. by rewrite Hreq, Hreq1.
Qed.

Lemma serve_inv s h0 reqs :
  wf s → transcript s = Some h0 → inv h0 (serve s reqs).
Proof.
  intros [Hmu Hok] Hh. unfold inv, serve. simpl. rewrite Hmu.
  split_and!; [done| |].
  - exists h0. split; [done|].
    replace ((spawn <$> reqs) ≫= contrib) with (@nil string);
      [by rewrite app_nil_r|].
    induction reqs as [|o reqs IH]; [done|]. by rewrite fmap_cons, bind_cons, <- IH.
  - intros t g Hl _. apply list_lookup_fmap_Some in Hl as (o & -> & _). by left.
Qed.

Lemma finished_contrib (gs : list goroutine) :
  forallb returned gs = true → gs ≫= contrib = (g_req <$> gs) ≫= line_of.
Proof.
  induction gs as [|g gs IH]; [done|]. cbn [forallb]. intros [Hg Hgs]%andb_prop.
  rewrite fmap_cons, !bind_cons, IH by done. f_equal.
  unfold returned in Hg. unfold contrib. by destruct (pc g).
Qed.

(** A goroutine that runs alone does what the handler does. *)
Lemma stmts_SendMessage sender text s s' reply e :
  SendMessage growcap {| Name := sender; Message := text |} zero_reply s
  = Some (s', reply, e) →
  ∃ g, stmts growcap 8 (spawn (Submit sender text)) s = Some (s', g)
       ∧ pc g = at_done ∧ g_req g = Submit sender text
       ∧ g_reply g = reply ∧ g_ret g = Some e.
Proof.
  unfold SendMessage. intros Hc.
  destruct (Lock s) as [s1|] eqn:HL; [|done]. cbn [mbind option_bind] in Hc.
  cbn [Name Message] in Hc.
  destruct (append growcap (history (srv s1)) (sender +:+ ": " +:+ text) (mem s1))
    as [[sl m]|] eqn:Ha; [|done].
  cbn [mbind option_bind] in Hc.
  set (s2 := log_Printf sender text (s_len (history (srv (set_history sl m s1))))
               (set_history sl m s1)) in *.
  destruct (make (s_len (history (srv s2))) (mem s2)) as [r m2] eqn:Hm.
  cbn [History] in Hc.
  destruct (copy r (history (srv s2)) m2) as [[n m3]|] eqn:Hcp; [|done].
  cbn [mbind option_bind] in Hc.
  destruct (Unlock (set_mem m3 s2)) as [s3|] eqn:HU; [|done].
  cbn [mbind option_bind] in Hc. injection Hc as <- <- <-.
  eexists. split.
  - unfold set_mem in HU.
    repeat first
      [ progress cbn [stmts mbind option_bind stmt spawn pc g_req goto set_msg
          set_tmp set_reply set_ret formattedMsg g_tmp g_reply g_ret
          set_mem mem srv logged History]
      | rewrite HL | rewrite Ha | progress fold s2 | rewrite Hm | rewrite Hcp
      | progress unfold set_mem | rewrite HU ].
    done.
  - split_and!; reflexivity.
Qed.

Lemma stmts_GetHistory s s' reply e :
  GetHistory zero_reply s = Some (s', reply, e) →
  ∃ g, stmts growcap 4 (spawn Fetch) s = Some (s', g)
       ∧ pc g = at_done ∧ g_req g = Fetch
       ∧ g_reply g = reply ∧ g_ret g = Some e.
Proof.
  unfold GetHistory. intros Hc.
  destruct (Lock s) as [s1|] eqn:HL; [|done]. cbn [mbind option_bind] in Hc.
  destruct (make (s_len (history (srv s1))) (mem s1)) as [r m2] eqn:Hm.
  cbn [History] in Hc.
  destruct (copy r (history (srv s1)) m2) as [[n m3]|] eqn:Hcp; [|done].
  cbn [mbind option_bind] in Hc.
  destruct (Unlock (set_mem m3 s1)) as [s3|] eqn:HU; [|done].
  cbn [mbind option_bind] in Hc. injection Hc as <- <- <-.
  eexists. split.
  - unfold set_mem in HU.
    repeat first
      [ progress cbn [stmts mbind option_bind stmt spawn pc g_req goto set_msg
          set_tmp set_reply set_ret formattedMsg g_tmp g_reply g_ret
          set_mem mem srv logged History]
      | rewrite HL | rewrite Hm | rewrite Hcp
      | progress unfold set_mem | rewrite HU ].
    done.
  - split_and!; reflexivity.
Qed.

Lemma exec_replicate n t g s (gs : list goroutine) s' g' :
  t < length gs → stmts growcap n g s = Some (s', g') →
  exec growcap (replicate n t) {| shared := s; pool := <[t := g]> gs |}
  = Some {| shared := s'; pool := <[t := g']> gs |}.
Proof.
  intros Hlt. revert g s. induction n as [|n IH]; intros g s Hn; simpl in *.
  - by injection Hn as <- <-.
  - destruct (stmt growcap g s) as [[s1 g1]|] eqn:Hs; [|done]. simpl in Hn.
    unfold step. simpl. rewrite list_lookup_insert_eq by done. simpl.
    rewrite Hs. simpl. rewrite list_insert_insert_eq. by apply IH.
Qed.

Lemma exec_app sched1 sched2 c :
  exec growcap (sched1 ++ sched2) c
  = exec growcap sched1 c ≫= exec growcap sched2.
Proof.
  revert c. induction sched1 as [|t sched1 IH]; intros c; simpl; [done|].
  destruct (step growcap t c) as [c1|]; simpl; [apply IH|done].
Qed.

(** The calls can always all return: served one after the other they do. *)
Lemma sequential_finishes reqs (finished_gs : list goroutine) s :
  wf s → forallb returned finished_gs = true →
  ∃ c, exec growcap (sequential (length finished_gs) reqs)
         {| shared := s; pool := finished_gs ++ (spawn <$> reqs) |} = Some c
       ∧ finished c = true.
Proof.
  revert finished_gs s. induction reqs as [|o reqs IH]; intros gs s Hwf Hgs.
  - simpl. eexists. split; [done|]. unfold finished. simpl. by rewrite app_nil_r.
  - destruct (wf_transcript s Hwf) as [h Hh].
    destruct (call_spec growcap o s h Hwf Hh) as (s1 & lr & Hc & Hwf1 & _).
    assert (∃ g, stmts growcap (steps_of o) (spawn o) s = Some (s1, g)
                 ∧ pc g = at_done) as (g & Hg & Hpc).
    { destruct o as [sender text|]; simpl in Hc.
      - destruct (stmts_SendMessage _ _ _ _ _ _ Hc) as (g & ? & ? & _). eauto.
      - destruct (stmts_GetHistory _ _ _ _ Hc) as (g & ? & ? & _). eauto. }
    cbn [sequential]. rewrite exec_app, fmap_cons.
    assert (length gs < length (gs ++ spawn o :: (spawn <$> reqs))) as Hlt.
    { rewrite length_app. simpl. lia. }
    rewrite <- (list_insert_id (gs ++ spawn o :: (spawn <$> reqs)) (length gs) (spawn o))
      by (by apply list_lookup_middle).
    rewrite (exec_replicate _ _ _ _ _ _ _ Hlt Hg). simpl.
    rewrite insert_app_r_alt, Nat.sub_diag by lia. simpl.
    rewrite (cons_middle g), (assoc_L (++)).
    replace (S (length gs)) with (length (gs ++ [g])) by (rewrite length_app; simpl; lia).
    apply IH; [done|].
    rewrite forallb_app, Hgs. simpl. unfold returned. by rewrite Hpc.
Qed.

Lemma some_schedule_finishes reqs s :
  wf s → ∃ sched c, exec growcap sched (serve s reqs) = Some c ∧ finished c = true.
Proof.
  intros Hwf. destruct (sequential_finishes reqs [] s Hwf eq_refl) as (c & Hc & Hf).
  by exists (sequential 0 reqs), c.
Qed.

(** The transcript once every goroutine of the pool has returned. *)
Lemma exec_finished s h0 reqs sched c :
  wf s → transcript s = Some h0 →
  exec growcap sched (serve s reqs) = Some c → finished c = true →
  ∃ h, transcript (shared c) = Some h ∧ h ≡ₚ h0 ++ (reqs ≫= line_of)
       ∧ mu (srv (shared c)) = false.
Proof.
  intros Hwf Hh Hex Hfin.
  destruct (exec_inv h0 sched _ c (serve_inv s h0 reqs Hwf Hh) Hex)
    as [(Hok & (h & Ht & Hperm) & Hmu) Hreq].
  exists h. split; [done|]. split.
  - rewrite Hperm, (finished_contrib _ Hfin), Hreq. simpl.
    rewrite <- list_fmap_compose. by rewrite list_fmap_id.
  - destruct (mu (srv (shared c))); [|done].
    destruct Hmu as (t & g & Hg & Hcrit & _). exfalso.
    unfold finished in Hfin. rewrite forallb_forall in Hfin.
    assert (returned g = true) as Hr.
    { apply Hfin. apply list_elem_of_In. by eapply list_elem_of_lookup_2. }
    unfold returned in Hr. unfold critical in Hcrit. by destruct (pc g).
Qed.

End Pool_facts.

Lemma length_lines reqs : length (reqs ≫= line_of) = submits reqs.
Proof.
  induction reqs as [|[sender text|] reqs IH]; [done|..];
    rewrite bind_cons, length_app, IH; done.
Qed.

(** C3: calls served concurrently.  Let the calls [reqs] arrive together at
    a server whose transcript is [h0], and let them run as goroutines under
    any schedule until all have returned.  Then the transcript is [h0] and
    the lines [sender + ": " + text] of the [Submit] calls among them, in
    some order, each line once: none is missing and none is there twice.  So
    [N] concurrent [Submit] calls add exactly [N] lines, and on the server
    as it starts the transcript has exactly [N] lines. *)
Theorem concurrent_Submits_each_once
    (growcap : nat → nat → nat) (s : state) (h0 : list string)
    (reqs : list op) (sched : list nat) (c : config) :
  wf s → transcript s = Some h0 →
  exec growcap sched (serve s reqs) = Some c →
  finished c = true →
  ∃ h, transcript (shared c) = Some h
       ∧ h ≡ₚ h0 ++ (reqs ≫= line_of)
       ∧ length h = length h0 + submits reqs.
Proof.
  intros Hwf Hh Hex Hfin.
  destruct (exec_finished growcap s h0 reqs sched c Hwf Hh Hex Hfin)
    as (h & Ht & Hperm & _).
  exists h. split; [done|]. split; [done|].
  by rewrite Hperm, length_app, length_lines.
Qed.

Lemma concurrent_Submits_each_once_witness :
  let reqs := [Submit "alice" "hi"; Fetch; Submit "bob" "hello"] in
  let sched := replicate 8 2 ++ replicate 4 1 ++ replicate 8 0 in
  let c := default (serve init reqs) (exec doubling sched (serve init reqs)) in
  ∃ h, transcript (shared c) = Some h
       ∧ h ≡ₚ [] ++ (reqs ≫= line_of)
       ∧ length h = 0 + 2.
Proof.
  intros reqs sched c.
  apply (concurrent_Submits_each_once doubling init [] reqs sched c).
  - eval_wf.
  - reflexivity.
  - vm_compute. reflexivity.
  - vm_compute. reflexivity.
Defined.

(** ** The client *)

Lemma asciiSpace_ascii c : asciiSpace c = true → Ascii.nat_of_ascii c < RuneSelf.
Proof.
  unfold asciiSpace, RuneSelf. intros H%bool_decide_eq_true.
  rewrite !elem_of_cons, elem_of_nil in H. lia.
Qed.

Lemma forallb_Forall {A} (f : A → bool) l :
  forallb f l = true → Forall (λ x, f x = true) l.
Proof.
  induction l as [|x l IH]; [constructor|]. cbn [forallb].
  intros [? ?]%andb_prop. constructor; auto.
Qed.

Lemma skip_blanks ws rest :
  Forall (λ c, asciiSpace c = true) ws → skip (ws ++ rest) = skip rest.
Proof.
  induction 1 as [|c ws Hc _ IH]; [done|]. simpl.
  rewrite decide_False by (apply asciiSpace_ascii in Hc; lia).
  by rewrite Hc.
Qed.

Lemma skip_graphic c rest : graphic c = true → skip (c :: rest) = Stop (c :: rest).
Proof.
  unfold graphic. intros [Hlt Hsp]%andb_prop. apply bool_decide_eq_true in Hlt.
  apply negb_true_iff in Hsp. simpl.
  rewrite decide_False by lia. by rewrite Hsp.
Qed.

Section Client_facts.

Variable TrimFunc_IsSpace : string → string.
Variable TrimRightFunc_IsSpace : string → string.

Lemma TrimSpace_ascii ws1 core ws2 :
  forallb asciiSpace ws1 = true → forallb asciiSpace ws2 = true → bare core = true →
  TrimSpace TrimFunc_IsSpace TrimRightFunc_IsSpace
    (String.string_of_list_ascii (ws1 ++ core ++ ws2))
  = String.string_of_list_ascii core.
Proof.
  intros H1%forallb_Forall H2%forallb_Forall Hcore. unfold TrimSpace.
  rewrite String.list_ascii_of_string_of_list_ascii, (skip_blanks _ _ H1).
  destruct core as [|a core'].
  - simpl. pose proof (skip_blanks ws2 [] H2) as Hs. rewrite app_nil_r in Hs.
    rewrite Hs. reflexivity.
  - unfold bare in Hcore.
    destruct (last (a :: core')) as [z|] eqn:Hz; [|by apply last_None in Hz].
    apply andb_prop in Hcore as [Ha Hzg].
    rewrite <- app_comm_cons, (skip_graphic _ _ Ha), app_comm_cons.
    rewrite reverse_app, (skip_blanks _ _ (proj2 (Forall_reverse _ _) H2)).
    rewrite <- head_reverse in Hz.
    destruct (reverse (a :: core')) as [|z' r] eqn:Hr; [done|].
    injection Hz as ->. rewrite (skip_graphic _ _ Hzg), <- Hr.
    by rewrite reverse_involutive.
Qed.

Lemma chat_round_trim name line :
  chat_round TrimFunc_IsSpace TrimRightFunc_IsSpace name (line, None)
  = if decide (TrimSpace TrimFunc_IsSpace TrimRightFunc_IsSpace line = "exit")
    then Break
    else Send {| Name := name;
                 Message := TrimSpace TrimFunc_IsSpace TrimRightFunc_IsSpace line |}.
Proof. reflexivity. Qed.

Lemma chat_loop_cons growcap name rd reads s :
  chat_loop TrimFunc_IsSpace TrimRightFunc_IsSpace growcap name (rd :: reads) s
  = match chat_round TrimFunc_IsSpace TrimRightFunc_IsSpace name rd with
    | Fatal what => (["Enter message (or 'exit' to quit): "], s, Some what)
    | Break => (["Enter message (or 'exit' to quit): "], s, None)
    | Send args =>
        match SendMessage growcap args zero_reply s with
        | None => (["Enter message (or 'exit' to quit): "], s, Some "RPC error:")
        | Some (s', reply, _) =>
            let '(out, s'', status) :=
              chat_loop TrimFunc_IsSpace TrimRightFunc_IsSpace growcap name reads s' in
            ("Enter message (or 'exit' to quit): "
               :: (nl +:+ "--- Chat History ---" +:+ nl)
               :: ((λ msg, msg +:+ nl) <$>
                     default [] (elems (History reply) (mem s')))
               ++ ("------------------" +:+ nl +:+ nl)
               :: out,
             s'', status)
        end
    end.
Proof. reflexivity. Qed.

End Client_facts.

(** C9, as the code has it: the client trims the white space around each
    line it reads ([strings.TrimSpace]) and compares the trimmed value with
    the literal ["exit"], exactly and case-sensitively.  For a line that is
    ASCII white space, a core free of white space at both ends, and ASCII
    white space again, the trimmed value is the core.  When the core is
    ["exit"] the loop stops and the server is left as it was, no
    [SendMessage] having been called; every other core, the empty core of a
    line of white space included, is sent as the message and becomes the
    next line of the transcript. *)
Theorem client_compares_trimmed_line
    (TrimFunc_IsSpace TrimRightFunc_IsSpace : string → string)
    (growcap : nat → nat → nat) (name : string)
    (ws1 core ws2 : list Ascii.ascii)
    (rest : list (string * option string)) (s : state) (h : list string) :
  forallb asciiSpace ws1 = true → forallb asciiSpace ws2 = true →
  bare core = true →
  wf s → transcript s = Some h →
  let trim := TrimSpace TrimFunc_IsSpace TrimRightFunc_IsSpace in
  let round := chat_round TrimFunc_IsSpace TrimRightFunc_IsSpace in
  let loop := chat_loop TrimFunc_IsSpace TrimRightFunc_IsSpace growcap in
  let line := String.string_of_list_ascii (ws1 ++ core ++ ws2) in
  let message := String.string_of_list_ascii core in
  (∀ any, round name (any, None)
          = if decide (trim any = "exit") then Break
            else Send {| Name := name; Message := trim any |})
  ∧ trim line = message
  ∧ round name (line, None)
    = (if decide (message = "exit") then Break
       else Send {| Name := name; Message := message |})
  ∧ (if decide (message = "exit")
     then loop name ((line, None) :: rest) s
          = (["Enter message (or 'exit' to quit): "], s, None)
     else ∃ s1 reply,
            SendMessage growcap {| Name := name; Message := message |} zero_reply s
            = Some (s1, reply, None)
            ∧ transcript s1 = Some (h ++ [name +:+ ": " +:+ message])
            ∧ (loop name ((line, None) :: rest) s).1.2 = (loop name rest s1).1.2).
Proof.
  intros H1 H2 Hcore Hwf Hh trim round loop line message.
  subst trim round loop.
  assert (TrimSpace TrimFunc_IsSpace TrimRightFunc_IsSpace line = message) as Htrim
    by (by apply TrimSpace_ascii).
  assert (chat_round TrimFunc_IsSpace TrimRightFunc_IsSpace name (line, None)
          = (if decide (message = "exit") then Break
             else Send {| Name := name; Message := message |})) as Hround.
  { by rewrite chat_round_trim, Htrim. }
  split; [intros any; apply chat_round_trim|]. split; [done|]. split; [done|].
  rewrite chat_loop_cons, Hround.
  destruct (decide (message = "exit")) as [He|Hne]; [done|].
  destruct (SendMessage_spec growcap {| Name := name; Message := message |}
              zero_reply s h Hwf Hh) as (s1 & lr & Hc & _ & Ht & _).
  eexists _, _. split; [exact Hc|]. split; [exact Ht|]. rewrite Hc.
  by destruct (chat_loop _ _ _ _ rest s1) as [[out s''] status].
Qed.

Lemma client_compares_trimmed_line_witness :
  let ws1 := String.list_ascii_of_string " " in
  let core := String.list_ascii_of_string "exit" in
  let ws2 := String.list_ascii_of_string (" " +:+ nl) in
  let s := after [Submit "alice" "hi"] in
  let rest := [("never read" +:+ nl, None)] in
  let trim := TrimSpace id id in
  let round := chat_round id id in
  let loop := chat_loop id id doubling in
  let line := String.string_of_list_ascii (ws1 ++ core ++ ws2) in
  let message := String.string_of_list_ascii core in
  (∀ any, round "bob" (any, None)
          = if decide (trim any = "exit") then Break
            else Send {| Name := "bob"; Message := trim any |})
  ∧ trim line = message
  ∧ round "bob" (line, None)
    = (if decide (message = "exit") then Break
       else Send {| Name := "bob"; Message := message |})
  ∧ (if decide (message = "exit")
     then loop "bob" ((line, None) :: rest) s
          = (["Enter message (or 'exit' to quit): "], s, None)
     else ∃ s1 reply,
            SendMessage doubling {| Name := "bob"; Message := message |} zero_reply s
            = Some (s1, reply, None)
            ∧ transcript s1 = Some (["alice: hi"] ++ ["bob" +:+ ": " +:+ message])
            ∧ (loop "bob" ((line, None) :: rest) s).1.2 = (loop "bob" rest s1).1.2).
Proof.
  intros ws1 core ws2 s rest.
  apply (client_compares_trimmed_line id id doubling "bob" ws1 core ws2 rest s
           ["alice: hi"]).
  - reflexivity.
  - reflexivity.
  - reflexivity.
  - eval_wf.
  - vm_compute. reflexivity.
Defined.

(** C9, as the claim words it, fails: a line that is not the literal
    ["exit"], here the word between two blanks, makes the client stop
    without a call all the same. *)
Lemma exit_between_blanks_disconnects :
  " exit " ≠ "exit"
  ∧ " exit " +:+ nl ≠ "exit" +:+ nl
  ∧ (∀ (f g : string → string) name,
       chat_round f g name (" exit " +:+ nl, None) = Break)
  ∧ (∀ (f g : string → string) growcap name rest s,
       chat_loop f g growcap name ((" exit " +:+ nl, None) :: rest) s
       = (["Enter message (or 'exit' to quit): "], s, None)).
Proof.
  split; [done|]. split; [done|]. split.
  - intros f g name. reflexivity.
  - intros f g growcap name rest s. reflexivity.
Qed.

(** The comparison is case-sensitive, and a line of white space is sent as
    the empty message. *)
Example EXIT_is_sent (f g : string → string) :
  chat_round f g "bob" ("EXIT" +:+ nl, None) = Send {| Name := "bob"; Message := "EXIT" |}
  ∧ chat_round f g "bob" ("  " +:+ nl, None) = Send {| Name := "bob"; Message := "" |}.
Proof. split; reflexivity. Qed.

(** ** More of the server, call by call *)

Section More_sequential.

Variable growcap : nat → nat → nat.

Lemma SendMessage_logged args reply s h s' reply' e :
  wf s → transcript s = Some h →
  SendMessage growcap args reply s = Some (s', reply', e) →
  logged s' = logged s ++ audit (length h) [Submit (Name args) (Message args)].
Proof.
  intros [Hmu Hok] Hh. unfold transcript in Hh.
  destruct (append_spec growcap _ (format_line args) _ _ Hok Hh)
    as (sl' & h1 & Happ & Hok1 & Hel1 & _).
  unfold SendMessage, Lock. rewrite Hmu. cbn [mbind option_bind srv mem history].
  unfold format_line in Happ. rewrite Happ. cbn [mbind option_bind].
  cbn [set_history log_Printf srv mem history].
  destruct (make (s_len sl') h1) as [r h2] eqn:Hmk. cbn [History].
  destruct (copy r sl' h2) as [[n m]|]; [|done]. cbn [mbind option_bind].
  unfold Unlock. cbn [set_mem srv mu mem history logged]. intros [= <- _ _].
  cbn [logged audit]. apply elems_length in Hel1.
  rewrite length_app in Hel1. simpl in Hel1. by rewrite <- Hel1, Nat.add_1_r.
Qed.

Lemma call_logged o s h s' reply e :
  wf s → transcript s = Some h → call growcap o s = Some (s', reply, e) →
  logged s' = logged s ++ audit (length h) [o].
Proof.
  intros Hwf Hh Hc. destruct o as [sender text|]; simpl in Hc.
  - by rewrite (SendMessage_logged _ _ _ _ _ _ _ Hwf Hh Hc).
  - destruct (call_spec growcap Fetch s h Hwf Hh) as (s1 & lr & Hc' & _ & _ & _ & _ & _ & _ & Hf).
    simpl in Hc'. rewrite Hc in Hc'. injection Hc' as -> _.
    destruct (Hf eq_refl) as (_ & -> & _). simpl. by rewrite app_nil_r.
Qed.

Lemma audit_app n ops1 ops2 :
  audit n (ops1 ++ ops2) = audit n ops1 ++ audit (n + submits ops1) ops2.
Proof.
  revert n. induction ops1 as [|[sender text|] ops1 IH]; intros n; simpl.
  - by rewrite Nat.add_0_r.
  - rewrite IH. do 3 f_equal. lia.
  - apply IH.
Qed.

Lemma length_audit n ops : length (audit n ops) = submits ops.
Proof.
  revert n. induction ops as [|[sender text|] ops IH]; intros n; simpl; auto.
Qed.

Lemma run_logged ops s h s' :
  wf s → transcript s = Some h → run growcap ops s = Some s' →
  logged s' = logged s ++ audit (length h) ops.
Proof.
  revert s h. induction ops as [|o ops IH]; intros s h Hwf Hh Hr; simpl in Hr.
  - injection Hr as <-. simpl. by rewrite app_nil_r.
  - destruct (call_spec growcap o s h Hwf Hh) as (s1 & lr & Hc & Hwf1 & Ht1 & _).
    rewrite Hc in Hr. simpl in Hr.
    rewrite (IH s1 _ Hwf1 Ht1 Hr), (call_logged o s h _ _ _ Hwf Hh Hc).
    rewrite <- (assoc_L (++)). f_equal.
    change (o :: ops) with ([o] ++ ops). rewrite audit_app. do 2 f_equal.
    rewrite length_app, <- length_lines. simpl. by rewrite app_nil_r.
Qed.

(** An array that [s.history] does not point to is left alone by every
    sequence of calls. *)
Lemma run_frame ops s s' l a :
  wf s → run growcap ops s = Some s' →
  mem s !! l = Some a → s_ptr (history (srv s)) ≠ Some l →
  mem s' !! l = Some a ∧ s_ptr (history (srv s')) ≠ Some l.
Proof.
  revert s. induction ops as [|o ops IH]; intros s Hwf Hr Hl Hne; simpl in Hr.
  - by injection Hr as <-.
  - destruct (wf_transcript s Hwf) as [h Hh].
    destruct (call_spec growcap o s h Hwf Hh)
      as (s1 & lr & Hc & Hwf1 & _ & _ & _ & _ & Hfr & _).
    rewrite Hc in Hr. simpl in Hr. destruct (Hfr l a Hl Hne) as [? ?]. eauto.
Qed.

End More_sequential.

(** X1: calls compose.  After any sequence of calls on a server whose
    transcript is [h], the transcript is [h] followed by the lines of the
    [Submit] calls of the sequence in call order, [Fetch] calls adding
    nothing: as many lines more as there were [Submit] calls. *)
Theorem calls_append_in_call_order
    (growcap : nat → nat → nat) (s : state) (h : list string) (ops : list op) :
  wf s → transcript s = Some h →
  ∃ s', run growcap ops s = Some s' ∧ wf s'
        ∧ transcript s' = Some (h ++ (ops ≫= line_of))
        ∧ length <$> transcript s' = Some (length h + submits ops).
Proof.
  intros Hwf Hh. destruct (run_spec growcap ops s h Hwf Hh) as (s' & Hr & Hwf' & Ht).
  exists s'. split_and!; try done.
  rewrite Ht. simpl. by rewrite length_app, length_lines.
Qed.

Lemma calls_append_in_call_order_witness :
  let ops := [Submit "bob" "hello"; Fetch; Submit "" ""; Submit "bob" "hello"] in
  ∃ s', run doubling ops (after [Submit "alice" "hi"]) = Some s' ∧ wf s'
        ∧ transcript s' = Some (["alice: hi"] ++ (ops ≫= line_of))
        ∧ length <$> transcript s' = Some (length ["alice: hi"] + submits ops).
Proof.
  intros ops.
  apply (calls_append_in_call_order doubling (after [Submit "alice" "hi"])
           ["alice: hi"] ops).
  - eval_wf.
  - vm_compute. reflexivity.
Defined.

(** X2: the audit log follows the transcript.  Every [SendMessage] writes
    one log line, naming the sender, the text and the length the transcript
    has with the new line; [GetHistory] writes none.  So a sequence of calls
    adds as many log lines as transcript lines, and the number in the k-th
    one is the position of its line in the transcript. *)
Theorem audit_log_follows_transcript
    (growcap : nat → nat → nat) (s : state) (h : list string) (ops : list op) :
  wf s → transcript s = Some h →
  ∃ s' h', run growcap ops s = Some s' ∧ transcript s' = Some h'
           ∧ logged s' = logged s ++ audit (length h) ops
           ∧ length (logged s') + length h = length (logged s) + length h'.
Proof.
  intros Hwf Hh. destruct (run_spec growcap ops s h Hwf Hh) as (s' & Hr & _ & Ht).
  exists s', (h ++ (ops ≫= line_of)). split_and!; try done.
  - by apply (run_logged growcap ops s h).
  - rewrite (run_logged growcap ops s h s' Hwf Hh Hr).
    rewrite !length_app, length_audit, length_lines. lia.
Qed.

Lemma audit_log_follows_transcript_witness :
  let s := after [Submit "alice" "hi"] in
  let ops := [Fetch; Submit "bob" "hello"; Submit "" ""] in
  ∃ s' h', run doubling ops s = Some s' ∧ transcript s' = Some h'
           ∧ logged s' = logged s ++ audit (length ["alice: hi"]) ops
           ∧ length (logged s') + length ["alice: hi"] = length (logged s) + length h'.
Proof.
  intros s ops.
  apply (audit_log_follows_transcript doubling s ["alice: hi"] ops).
  - eval_wf.
  - vm_compute. reflexivity.
Defined.

(** X3: replies do not share memory with each other.  Take the replies of
    two calls, with any calls between them.  A write into either reply
    ([snap[i] = v]) leaves the lines of the other as they were. *)
Theorem replies_do_not_alias
    (growcap : nat → nat → nat) (s : state) (o1 o2 : op) (between : list op)
    (s1 s2 s3 : state) (reply1 reply2 : HistoryReply) (e1 e2 : option string) :
  wf s →
  call growcap o1 s = Some (s1, reply1, e1) →
  run growcap between s1 = Some s2 →
  call growcap o2 s2 = Some (s3, reply2, e2) →
  ∃ lines1 lines2,
    elems (History reply1) (mem s3) = Some lines1
    ∧ elems (History reply2) (mem s3) = Some lines2
    ∧ (∀ i v m, store (History reply2) i v (mem s3) = Some m →
         elems (History reply1) m = Some lines1)
    ∧ (∀ i v m, store (History reply1) i v (mem s3) = Some m →
         elems (History reply2) m = Some lines2).
Proof.
  intros Hwf Hc1 Hr Hc2. destruct (wf_transcript s Hwf) as [h Hh].
  destruct (call_spec growcap o1 s h Hwf Hh)
    as (s1' & lr1 & Hc1' & Hwf1 & Ht1 & _ & Hm1 & Hne1 & _).
  rewrite Hc1 in Hc1'. injection Hc1' as -> -> ->.
  destruct (run_spec growcap between s1' _ Hwf1 Ht1) as (s2' & Hr' & Hwf2 & Ht2).
  rewrite Hr in Hr'. injection Hr' as <-.
  destruct (run_frame growcap between s1' s2 lr1 _ Hwf1 Hr Hm1 Hne1) as [Hm2 Hne2].
  destruct (call_spec growcap o2 s2 _ Hwf2 Ht2)
    as (s3' & lr2 & Hc2' & _ & _ & Hfresh & Hm3 & _ & Hfr & _).
  rewrite Hc2 in Hc2'. injection Hc2' as -> -> ->.
  destruct (Hfr lr1 _ Hm2 Hne2) as [Hm31 _].
  assert (lr1 ≠ lr2) as Hne by congruence.
  eexists _, _. cbn [History].
  split; [by apply elems_whole|]. split; [by apply elems_whole|]. split.
  - intros i v m. unfold store. cbn [s_ptr s_len]. case_decide; [|done].
    simpl. rewrite Hm3. simpl. case_decide; [|done]. intros [= <-].
    rewrite elems_insert_ne by (simpl; congruence). by apply elems_whole.
  - intros i v m. unfold store. cbn [s_ptr s_len]. case_decide; [|done].
    simpl. rewrite Hm31. simpl. case_decide; [|done]. intros [= <-].
    rewrite elems_insert_ne by (simpl; congruence). by apply elems_whole.
Qed.

Lemma replies_do_not_alias_witness :
  let s := after [Submit "alice" "hi"] in
  let s1 := (answered (Submit "bob" "hello") s).1 in
  let reply1 := (answered (Submit "bob" "hello") s).2 in
  let s2 := default init (run doubling [Fetch; Submit "carol" "hey"] s1) in
  let s3 := (answered Fetch s2).1 in
  let reply2 := (answered Fetch s2).2 in
  ∃ lines1 lines2,
    elems (History reply1) (mem s3) = Some lines1
    ∧ elems (History reply2) (mem s3) = Some lines2
    ∧ (∀ i v m, store (History reply2) i v (mem s3) = Some m →
         elems (History reply1) m = Some lines1)
    ∧ (∀ i v m, store (History reply1) i v (mem s3) = Some m →
         elems (History reply2) m = Some lines2).
Proof.
  intros s s1 reply1 s2 s3 reply2.
  apply (replies_do_not_alias doubling s (Submit "bob" "hello") Fetch
           [Fetch; Submit "carol" "hey"] s1 s2 s3 reply1 reply2 None None).
  - eval_wf.
  - vm_compute. reflexivity.
  - vm_compute. reflexivity.
  - vm_compute. reflexivity.
Defined.

(** ** More of the calls served concurrently *)

Section More_concurrent.

Variable growcap : nat → nat → nat.

Lemma todo_insert (gs : list goroutine) t g g' :
  gs !! t = Some g → todo g = S (todo g') →
  sum_list_with todo gs = S (sum_list_with todo (<[t := g']> gs)).
Proof.
  intros Hg Htodo.
  rewrite insert_take_drop by (eapply lookup_lt_Some; eauto).
  rewrite <- (take_drop_middle gs t g Hg) at 1.
  rewrite !sum_list_with_app. simpl. lia.
Qed.

Lemma stmt_todo g s s' g' : stmt growcap g s = Some (s', g') → todo g = S (todo g').
Proof.
  unfold stmt, todo. intros Hs.
  destruct (pc g) eqn:Hpc, (g_req g) eqn:Hreq; simplify_option_eq; try done;
    repeat case_match; simplify_option_eq; done.
Qed.

Lemma exec_todo sched c c' :
  exec growcap sched c = Some c' →
  sum_list_with todo (pool c) = length sched + sum_list_with todo (pool c').
Proof.
  revert c. induction sched as [|t sched IH]; intros c Hex; simpl in Hex.
  - by injection Hex as <-.
  - destruct (step growcap t c) as [c1|] eqn:Hst; [|done]. simpl in Hex.
    specialize (IH c1 Hex).
    assert (sum_list_with todo (pool c) = S (sum_list_with todo (pool c1))) as H1.
    { destruct c as [s gs]. unfold step in Hst. simpl in *.
      destruct (gs !! t) as [g|] eqn:Hg; [|done]. simpl in Hst.
      destruct (stmt growcap g s) as [[s' g']|] eqn:Hs; [|done].
      simpl in Hst. injection Hst as <-. simpl.
      exact (todo_insert gs t g g' Hg (stmt_todo _ _ _ _ Hs)). }
    simpl. lia.
Qed.

Lemma todo_spawn reqs : sum_list_with todo (spawn <$> reqs) = sum_list_with steps_of reqs.
Proof.
  induction reqs as [|o reqs IH]; [done|].
  rewrite fmap_cons. cbn [sum_list_with]. by rewrite IH.
Qed.

Lemma finished_todo (gs : list goroutine) :
  forallb returned gs = true ↔ sum_list_with todo gs = 0.
Proof.
  induction gs as [|g gs IH]; [done|]. cbn [forallb sum_list_with].
  rewrite andb_true_iff, IH. unfold returned, todo, steps_of.
  destruct (pc g), (g_req g); split; intros; try lia; try (split; [done|lia]);
    by destruct H.
Qed.

Lemma copy_into_new dst src (h : heap) l v :
  s_ptr dst = Some l → h !! l = Some (replicate (length v) "") →
  s_len dst = length v → elems src h = Some v →
  copy dst src h = Some (length v, <[l := v]> h).
Proof.
  intros Hp Hl Hlen Hv. unfold copy. rewrite Hv. simpl. rewrite Hp, Hl. simpl.
  rewrite Hlen, <- (elems_length _ _ _ Hv), Nat.min_id.
  rewrite length_replicate, decide_True by lia.
  rewrite take_ge, drop_ge by (rewrite ?length_replicate; lia).
  by rewrite app_nil_r.
Qed.

Lemma reply_ok_frame h0 h h' s s' g g' :
  reply_ok h0 h s g → h `prefix_of` h' →
  g_reply g' = g_reply g → g_req g' = g_req g →
  (∀ l a, s_ptr (History (g_reply g)) = Some l → mem s !! l = Some a →
          s_ptr (history (srv s)) ≠ Some l →
          mem s' !! l = Some a ∧ s_ptr (history (srv s')) ≠ Some l) →
  reply_ok h0 h' s' g'.
Proof.
  intros (lr & v & Hp & Hm & Hlen & Hp0 & Hpv & Hsuf & Hne) Hh Hrep Hreq Hfr.
  destruct (Hfr lr v Hp Hm Hne) as [Hm' Hne'].
  exists lr, v. rewrite Hrep, Hreq. split_and!; try done. by etrans.
Qed.

Lemma replies_inv_close h0 h h' s s' (gs : list goroutine) t g g' :
  gs !! t = Some g →
  (∀ t' g'', gs !! t' = Some g'' → t' ≠ t → idle g'') →
  (∀ t' g'', gs !! t' = Some g'' → local_ok h0 h s gs t' g'') →
  transcript s' = Some h' → h0 `prefix_of` h → h `prefix_of` h' →
  (∀ t' g'' l a, gs !! t' = Some g'' → t' ≠ t →
     s_ptr (History (g_reply g'')) = Some l → mem s !! l = Some a →
     s_ptr (history (srv s)) ≠ Some l →
     mem s' !! l = Some a ∧ s_ptr (history (srv s')) ≠ Some l) →
  local_ok h0 h' s' (<[t := g']> gs) t g' →
  replies_inv h0 {| shared := s'; pool := <[t := g']> gs |}.
Proof.
  intros Hg Hidle Hloc Ht Hp0 Hp Hfr Hg'. exists h'. simpl.
  split; [done|]. split; [by etrans|].
  intros t' g'' Hl. destruct (decide (t' = t)) as [->|Hne].
  - rewrite list_lookup_insert_eq in Hl by (eapply lookup_lt_Some; eauto).
    by injection Hl as <-.
  - rewrite list_lookup_insert_ne in Hl by done.
    specialize (Hloc t' g'' Hl). unfold local_ok in *.
    destruct (Hidle t' g'' Hl Hne) as [Hpc|Hpc]; rewrite Hpc in *; [done|].
    destruct Hloc as [Hrep Hret]. split; [|done].
    eapply reply_ok_frame; [done..|]. intros l a ? ? ?. by eapply Hfr.
Qed.

Ltac same_memory := intros ? ? ? ? ? ? ? ? ?; by split.

Lemma stmt_replies_inv h0 (s : state) (gs : list goroutine) t g s' g' :
  inv h0 {| shared := s; pool := gs |} →
  replies_inv h0 {| shared := s; pool := gs |} →
  gs !! t = Some g → stmt growcap g s = Some (s', g') →
  replies_inv h0 {| shared := s'; pool := <[t := g']> gs |}.
Proof.
  intros Hinv (h & Hh & Hp0 & Hloc) Hg Hs. simpl in *.
  pose proof (step_who growcap h0 s gs t g s' g' Hinv Hg Hs) as Hwho.
  destruct Hinv as (Hok & _ & _). simpl in Hok.
  pose proof (Hloc t g Hg) as Hme. unfold local_ok in Hme.
  assert (∀ t' g'', gs !! t' = Some g'' → t' ≠ t → idle g'') as Hidle.
  { destruct (mu (srv s)); destruct Hwho as [_ Hid]; intros t' g'' Hl Hne;
      (eapply Hid; [done|congruence]). }
  assert (∀ t' g'' l, gs !! t' = Some g'' → t' ≠ t →
            s_ptr (History (g_reply g'')) = Some l → is_Some (mem s !! l)) as Halloc.
  { intros t' g'' l Hl Hne Hptr. specialize (Hloc t' g'' Hl). unfold local_ok in Hloc.
    destruct (Hidle t' g'' Hl Hne) as [Hpc|Hpc]; rewrite Hpc in Hloc.
    - by rewrite Hloc in Hptr.
    - destruct Hloc as [(lr & v & Hp & Hm & _) _]. rewrite Hp in Hptr.
      injection Hptr as <-. eauto. }
  unfold stmt in Hs.
  destruct (pc g) eqn:Hpc.
  - (* s.mu.Lock() *)
    unfold Lock in Hs. destruct (mu (srv s)); [done|]. simpl in Hs.
    injection Hs as <- <-.
    eapply (replies_inv_close h0 h h); [done..| |same_memory|]; [done|].
    unfold local_ok. simpl. destruct (g_req g) eqn:Hreq; simpl.
    + split; [done|]. eauto.
    + split; [done|]. apply suffix_nil.
  - (* formattedMsg := ... *)
    destruct Hme as [Hrep Hsub]. destruct (g_req g) eqn:Hreq; [|done].
    injection Hs as <- <-.
    eapply (replies_inv_close h0 h h); [done..| |same_memory|]; [done|].
    unfold local_ok. simpl. rewrite Hreq. eauto.
  - (* the operand of append is read *)
    injection Hs as <- <-.
    eapply (replies_inv_close h0 h h); [done..| |same_memory|]; [done|].
    unfold local_ok. simpl. done.
  - (* s.history = append(...) *)
    destruct (mu (srv s)) eqn:Hm; [|destruct Hwho; congruence].
    destruct Hwho as [Hcrit _]. unfold critical in Hcrit. rewrite Hpc in Hcrit.
    destruct Hcrit as [Hline Htmp]. rewrite Htmp in Hs.
    destruct (append_spec growcap _ (formattedMsg g) _ _ Hok Hh)
      as (sl' & h1 & Happ & Hok1 & Hel1 & Hfr & _).
    rewrite Happ in Hs. simpl in Hs. injection Hs as <- <-.
    eapply (replies_inv_close h0 h (h ++ [formattedMsg g])); [done..| | | |].
    + done.
    + by apply prefix_app_r.
    + intros t' g'' l a _ _ _ Hl Hne. simpl. by apply Hfr.
    + unfold local_ok. simpl. destruct Hme as [? ?]. split_and!; [done..|].
      rewrite Hline. by apply suffix_app_r.
  - (* log.Printf *)
    destruct Hme as (Hrep & Hsub & Hsuf). destruct (g_req g) eqn:Hreq; [|done].
    injection Hs as <- <-.
    eapply (replies_inv_close h0 h h); [done..| |same_memory|]; [done|].
    unfold local_ok. simpl. by rewrite Hreq.
  - (* reply.History = make(...) *)
    destruct (make (s_len (history (srv s))) (mem s)) as [r m] eqn:Hmk.
    injection Hs as <- <-.
    apply make_spec in Hmk as (lr & Hlr & -> & ->).
    pose proof (slice_ok_ptr_fresh _ _ _ Hok Hlr) as Hne.
    destruct Hme as [Hrep Hsuf].
    eapply (replies_inv_close h0 h h); [done|done|done| |done| | |].
    + unfold transcript. simpl. by rewrite elems_insert_ne.
    + done.
    + intros t' g'' l a _ _ _ Hl Hnel. simpl. split; [|done].
      rewrite lookup_insert_ne; [done|congruence].
    + unfold local_ok. simpl. exists lr. simpl.
      rewrite lookup_insert_eq, (elems_length _ _ _ Hh). split_and!; try done.
      intros t' g'' Hl Hnet. rewrite list_lookup_insert_ne in Hl by done.
      intros Hptr. destruct (Halloc t' g'' lr Hl Hnet Hptr) as [? ?]. congruence.
  - (* copy(reply.History, s.history) *)
    destruct Hme as (lr & Hp & Hm & Hlen & Hsuf & Hne & Hdist).
    rewrite (copy_into_new _ _ _ lr h Hp Hm Hlen Hh) in Hs. simpl in Hs.
    injection Hs as <- <-.
    eapply (replies_inv_close h0 h h); [done|done|done| |done| | |].
    + unfold transcript. simpl. by rewrite elems_insert_ne.
    + done.
    + intros t' g'' l a Hl Hnet Hptr Hma Hnel. simpl. split; [|done].
      rewrite lookup_insert_ne; [done|]. intros <-. by eapply Hdist.
    + unfold local_ok. simpl. exists lr, h. simpl.
      rewrite lookup_insert_eq. split_and!; done.
  - (* return nil, and the deferred Unlock *)
    unfold Unlock in Hs. destruct (mu (srv s)); [|done]. simpl in Hs.
    injection Hs as <- <-.
    eapply (replies_inv_close h0 h h); [done..| |same_memory|]; [done|].
    unfold local_ok. simpl. split; [|done].
    eapply reply_ok_frame; [done..|]. intros; by split.
  - done.
Qed.

Lemma serve_replies_inv s h0 reqs :
  transcript s = Some h0 → replies_inv h0 (serve s reqs).
Proof.
  intros Hh. exists h0. split; [done|]. split; [done|].
  intros t g Hl. apply list_lookup_fmap_Some in Hl as (o & -> & _). done.
Qed.

Lemma exec_both_inv h0 sched c c' :
  inv h0 c → replies_inv h0 c → exec growcap sched c = Some c' →
  inv h0 c' ∧ replies_inv h0 c' ∧ g_req <$> pool c' = g_req <$> pool c.
Proof.
  revert c. induction sched as [|t sched IH]; intros c Hinv Hrep Hex; simpl in Hex.
  - by injection Hex as <-.
  - destruct (step growcap t c) as [c1|] eqn:Hst; [|done]. simpl in Hex.
    destruct (step_inv growcap h0 t c c1 Hinv Hst) as [Hinv1 Hreq1].
    assert (replies_inv h0 c1) as Hrep1.
    { destruct c as [s gs]. unfold step in Hst. simpl in Hst.
      destruct (gs !! t) as [g|] eqn:Hg; [|done]. simpl in Hst.
      destruct (stmt growcap g s) as [[s' g']|] eqn:Hs; [|done].
      simpl in Hst. injection Hst as <-. by eapply stmt_replies_inv. }
    destruct (IH c1 Hinv1 Hrep1 Hex) as (? & ? & Hreq). by rewrite Hreq, Hreq1.
Qed.

Lemma reachable_inv s h0 reqs sched c :
  wf s → transcript s = Some h0 →
  exec growcap sched (serve s reqs) = Some c →
  inv h0 c ∧ replies_inv h0 c ∧ g_req <$> pool c = reqs.
Proof.
  intros Hwf Hh Hex.
  destruct (exec_both_inv h0 sched _ c (serve_inv s h0 reqs Hwf Hh)
              (serve_replies_inv s h0 reqs Hh) Hex) as (? & ? & Hreq).
  split_and!; [done..|]. rewrite Hreq. simpl.
  rewrite <- list_fmap_compose. apply list_fmap_id.
Qed.

Lemma busy_not_idle g : busy g = true → idle g → False.
Proof. unfold busy. by intros Hb [Hpc|Hpc]; rewrite Hpc in Hb. Qed.

Lemma not_all_returned (gs : list goroutine) :
  forallb returned gs = false → ∃ t g, gs !! t = Some g ∧ returned g = false.
Proof.
  induction gs as [|g gs IH]; [done|]. cbn [forallb].
  destruct (returned g) eqn:Hg; simpl.
  - intros (t & g' & ? & ?)%IH. by exists (S t), g'.
  - intros _. by exists 0, g.
Qed.

Lemma sum_steps_of reqs : sum_list_with steps_of reqs ≤ 8 * length reqs.
Proof.
  induction reqs as [|[sender text|] reqs IH]; simpl in *; lia.
Qed.

(** In a reachable configuration the goroutine that can move does move. *)
Lemma holder_moves h0 (s : state) (gs : list goroutine) t g :
  inv h0 {| shared := s; pool := gs |} →
  replies_inv h0 {| shared := s; pool := gs |} →
  gs !! t = Some g →
  (if mu (srv s) then critical g s else pc g = at_Lock) →
  ∃ s' g', stmt growcap g s = Some (s', g').
Proof.
  intros (Hok & _ & _) (h & Hh & _ & Hloc) Hg Hcan. simpl in *.
  specialize (Hloc t g Hg). unfold local_ok in Hloc. unfold stmt.
  destruct (mu (srv s)) eqn:Hm.
  - unfold critical in Hcan. destruct (pc g) eqn:Hpc; try done.
    + destruct Hloc as (_ & a & b & ->). eauto.
    + eauto.
    + destruct Hcan as [_ ->].
      destruct (append_spec growcap _ (formattedMsg g) _ _ Hok Hh)
        as (sl' & h1 & -> & _). simpl. eauto.
    + destruct Hloc as (_ & (a & b & ->) & _). eauto.
    + destruct (make _ _). eauto.
    + destruct Hloc as (lr & Hp & Hl & Hlen & _).
      rewrite (copy_into_new _ _ _ lr h Hp Hl Hlen Hh). simpl. eauto.
    + unfold Unlock. rewrite Hm. simpl. eauto.
  - rewrite Hcan. unfold Lock. rewrite Hm. simpl. eauto.
Qed.

End More_concurrent.

(** X4: one handler at a time.  In every configuration that a schedule
    reaches, two goroutines that are both between [Lock] and the deferred
    [Unlock] are the same goroutine, and the mutex is held. *)
Theorem one_handler_at_a_time
    (growcap : nat → nat → nat) (s : state) (h0 : list string)
    (reqs : list op) (sched : list nat) (c : config)
    (t1 t2 : nat) (g1 g2 : goroutine) :
  wf s → transcript s = Some h0 →
  exec growcap sched (serve s reqs) = Some c →
  pool c !! t1 = Some g1 → pool c !! t2 = Some g2 →
  busy g1 = true → busy g2 = true →
  t1 = t2 ∧ mu (srv (shared c)) = true.
Proof.
  intros Hwf Hh Hex H1 H2 Hb1 Hb2.
  destruct (reachable_inv growcap s h0 reqs sched c Hwf Hh Hex)
    as ((_ & _ & Hmu) & _ & _).
  destruct (mu (srv (shared c))).
  - destruct Hmu as (t & g & _ & _ & Hidle). split; [|done].
    destruct (decide (t1 = t)) as [->|Hne1].
    + destruct (decide (t2 = t)) as [->|Hne2]; [done|].
      destruct (busy_not_idle g2 Hb2). eapply Hidle; [done|congruence].
    + destruct (busy_not_idle g1 Hb1). eapply Hidle; [done|congruence].
  - destruct (busy_not_idle g1 Hb1). by eapply Hmu.
Qed.

(** X5: no deadlock.  In every configuration that a schedule reaches from a
    well-formed server, as long as some call has not returned some
    goroutine can execute its next statement: the mutex is never left held
    by a handler that cannot go on, and no statement of a handler fails. *)
Theorem handlers_never_deadlock
    (growcap : nat → nat → nat) (s : state) (h0 : list string)
    (reqs : list op) (sched : list nat) (c : config) :
  wf s → transcript s = Some h0 →
  exec growcap sched (serve s reqs) = Some c →
  finished c = false →
  ∃ t c', step growcap t c = Some c'.
Proof.
  intros Hwf Hh Hex Hfin.
  destruct (reachable_inv growcap s h0 reqs sched c Hwf Hh Hex) as (Hinv & Hrep & _).
  destruct c as [sc gs]. unfold finished in Hfin. simpl in Hfin.
  assert (∃ t g, gs !! t = Some g
                 ∧ if mu (srv sc) then critical g sc else pc g = at_Lock)
    as (t & g & Hg & Hcan).
  { pose proof Hinv as (_ & _ & Hmu). simpl in Hmu. destruct (mu (srv sc)).
    - destruct Hmu as (t & g & ? & ? & _). eauto.
    - destruct (not_all_returned gs Hfin) as (t & g & Hg & Hr).
      exists t, g. split; [done|]. unfold returned in Hr.
      destruct (Hmu t g Hg) as [Hpc|Hpc]; [done..|]. by rewrite Hpc in Hr. }
  destruct (holder_moves growcap h0 sc gs t g Hinv Hrep Hg Hcan) as (s' & g' & Hs).
  exists t. unfold step. simpl. rewrite Hg. simpl. rewrite Hs. simpl. eauto.
Qed.

(** X6: every reply is a snapshot, also under concurrency.  When a call
    served concurrently with others has returned, it has returned [nil],
    and its reply holds the transcript as it was when the call held the
    mutex: the lines the server started with, then lines of other calls,
    ending with the call's own line when it is a [Submit]; and these lines
    are a prefix of the transcript at every later time, whatever the other
    calls do. *)
Theorem concurrent_replies_are_snapshots
    (growcap : nat → nat → nat) (s : state) (h0 : list string)
    (reqs : list op) (sched : list nat) (c : config) (t : nat) (g : goroutine) :
  wf s → transcript s = Some h0 →
  exec growcap sched (serve s reqs) = Some c →
  pool c !! t = Some g → returned g = true →
  ∃ h lines,
    transcript (shared c) = Some h
    ∧ elems (History (g_reply g)) (mem (shared c)) = Some lines
    ∧ h0 `prefix_of` lines ∧ lines `prefix_of` h
    ∧ line_of (g_req g) `suffix_of` lines
    ∧ reqs !! t = Some (g_req g)
    ∧ g_ret g = Some None.
Proof.
  intros Hwf Hh Hex Hg Hret.
  destruct (reachable_inv growcap s h0 reqs sched c Hwf Hh Hex)
    as (_ & (h & Ht & _ & Hloc) & Hreq).
  specialize (Hloc t g Hg). unfold local_ok in Hloc. unfold returned in Hret.
  destruct (pc g); try done.
  destruct Hloc as [(lr & v & Hp & Hm & Hlen & Hp0 & Hpv & Hsuf & _) Hnil].
  exists h, v. split_and!; try done.
  - unfold elems. rewrite Hp, Hm. simpl.
    rewrite decide_True by lia. by rewrite Hlen, firstn_all.
  - rewrite <- Hreq, list_lookup_fmap, Hg. done.
Qed.

(** X7: handlers terminate.  Every step of a schedule executes one of the
    eight statements of a [SendMessage] or of the four of a [GetHistory], so
    a schedule is never longer than that total, at most eight steps a call,
    and all calls have returned exactly when it has that length. *)
Theorem schedules_are_bounded
    (growcap : nat → nat → nat) (s : state) (reqs : list op)
    (sched : list nat) (c : config) :
  exec growcap sched (serve s reqs) = Some c →
  length sched + sum_list_with todo (pool c) = sum_list_with steps_of reqs
  ∧ length sched ≤ 8 * length reqs
  ∧ (finished c = true ↔ length sched = sum_list_with steps_of reqs).
Proof.
  intros Hex. pose proof (exec_todo growcap sched _ c Hex) as Hsum. simpl in Hsum.
  rewrite todo_spawn in Hsum. pose proof (sum_steps_of reqs).
  split_and!; [lia..|]. unfold finished. rewrite finished_todo. lia.
Qed.

Lemma one_handler_at_a_time_witness :
  let reqs := [Submit "alice" "hi"; Fetch; Submit "bob" "hello"] in
  let sched := replicate 8 2 ++ [0; 0; 0] in
  let c := default (serve init reqs) (exec doubling sched (serve init reqs)) in
  0 = 0 ∧ mu (srv (shared c)) = true.
Proof.
  intros reqs sched c.
  apply (one_handler_at_a_time doubling init [] reqs sched c 0 0
           (default (spawn Fetch) (pool c !! 0)) (default (spawn Fetch) (pool c !! 0))).
  - eval_wf.
  - reflexivity.
  - vm_compute. reflexivity.
  - vm_compute. reflexivity.
  - vm_compute. reflexivity.
  - vm_compute. reflexivity.
  - vm_compute. reflexivity.
Defined.

Lemma handlers_never_deadlock_witness :
  let reqs := [Submit "alice" "hi"; Fetch; Submit "bob" "hello"] in
  let sched := replicate 8 2 ++ [0; 0; 0] in
  let c := default (serve init reqs) (exec doubling sched (serve init reqs)) in
  ∃ t c', step doubling t c = Some c'.
Proof.
  intros reqs sched c.
  apply (handlers_never_deadlock doubling init [] reqs sched c).
  - eval_wf.
  - reflexivity.
  - vm_compute. reflexivity.
  - vm_compute. reflexivity.
Defined.

Lemma concurrent_replies_are_snapshots_witness :
  let reqs := [Submit "alice" "hi"; Fetch; Submit "bob" "hello"] in
  let sched := replicate 8 2 ++ replicate 4 1 ++ replicate 5 0 in
  let c := default (serve init reqs) (exec doubling sched (serve init reqs)) in
  let g := default (spawn (Submit "" "")) (pool c !! 1) in
  ∃ h lines,
    transcript (shared c) = Some h
    ∧ elems (History (g_reply g)) (mem (shared c)) = Some lines
    ∧ [] `prefix_of` lines ∧ lines `prefix_of` h
    ∧ line_of (g_req g) `suffix_of` lines
    ∧ reqs !! 1 = Some (g_req g)
    ∧ g_ret g = Some None.
Proof.
  intros reqs sched c g.
  apply (concurrent_replies_are_snapshots doubling init [] reqs sched c 1 g).
  - eval_wf.
  - reflexivity.
  - vm_compute. reflexivity.
  - vm_compute. reflexivity.
  - vm_compute. reflexivity.
Defined.

Lemma schedules_are_bounded_witness :
  let reqs := [Submit "alice" "hi"; Fetch; Submit "bob" "hello"] in
  let sched := replicate 8 2 ++ replicate 4 1 ++ replicate 5 0 in
  let c := default (serve init reqs) (exec doubling sched (serve init reqs)) in
  length sched + sum_list_with todo (pool c) = sum_list_with steps_of reqs
  ∧ length sched ≤ 8 * length reqs
  ∧ (finished c = true ↔ length sched = sum_list_with steps_of reqs).
Proof.
  intros reqs sched c.
  apply (schedules_are_bounded doubling init reqs sched c).
  vm_compute. reflexivity.
Defined.

(** ** More of the client *)

Section More_client.

Variable TrimFunc_IsSpace : string → string.
Variable TrimRightFunc_IsSpace : string → string.
Variable growcap : nat → nat → nat.

Let trim := TrimSpace TrimFunc_IsSpace TrimRightFunc_IsSpace.
Let loop := chat_loop TrimFunc_IsSpace TrimRightFunc_IsSpace growcap.

Lemma chat_loop_session name reads s h :
  wf s → transcript s = Some h →
  ∃ sent rest out s' status,
    loop name reads s = (out, s', status)
    ∧ reads = sent ++ rest
    ∧ Forall (λ rd, rd.2 = None ∧ trim rd.1 ≠ "exit") sent
    ∧ wf s'
    ∧ transcript s'
      = Some (h ++ ((λ rd, name +:+ ": " +:+ trim rd.1) <$> sent))
    ∧ match rest with
      | [] => status = Some "Error reading message:EOF"
      | (line, None) :: _ => trim line = "exit" ∧ status = None
      | (_, Some e) :: _ => status = Some ("Error reading message:" +:+ e)
      end.
Proof.
  revert s h. induction reads as [|[line [e|]] reads IH]; intros s h Hwf Hh.
  - exists [], []. eexists _, _, _. split; [reflexivity|].
    simpl. rewrite app_nil_r. by split_and!.
  - exists [], ((line, Some e) :: reads). eexists _, _, _. split; [reflexivity|].
    simpl. rewrite app_nil_r. by split_and!.
  - unfold loop. rewrite chat_loop_cons, chat_round_trim. fold trim loop.
    destruct (decide (trim line = "exit")) as [He|Hne].
    + exists [], ((line, None) :: reads). eexists _, _, _. split; [reflexivity|].
      simpl. rewrite app_nil_r. by split_and!.
    + destruct (SendMessage_spec growcap {| Name := name; Message := trim line |}
                  zero_reply s h Hwf Hh) as (s1 & lr & -> & Hwf1 & Ht1 & _).
      destruct (IH s1 _ Hwf1 Ht1)
        as (sent & rest & out & s' & status & -> & -> & Hsent & Hwf' & Ht' & Hrest).
      exists ((line, None) :: sent), rest. eexists _, _, _.
      split; [reflexivity|]. split_and!; try done.
      * by constructor.
      * rewrite Ht', fmap_cons. cbn [format_line Name Message fst].
        by rewrite <- (assoc_L (++)).
Qed.

Lemma chat_loop_ends_with_prompt name reads s :
  ∃ pre, (loop name reads s).1.1 = pre ++ ["Enter message (or 'exit' to quit): "].
Proof.
  revert s. induction reads as [|rd reads IH]; intros s.
  - by exists [].
  - unfold loop. rewrite chat_loop_cons. fold loop.
    destruct (chat_round _ _ name rd) as [what| |args]; [by exists []..|].
    destruct (SendMessage growcap args zero_reply s) as [[[s1 reply] e]|];
      [|by exists []].
    destruct (IH s1) as [pre Hpre].
    destruct (loop name reads s1) as [[out s''] status]. simpl in *. subst out.
    eexists (_ :: _ :: _ ++ _ :: pre). simpl. do 2 f_equal.
    by rewrite <- (assoc_L (++)).
Qed.

End More_client.

(** X8: what a client session sends.  The chat loop sends the lines it
    reads, trimmed, one [SendMessage] each and in order, up to the first
    line that trims to ["exit"], the first failed read, or the end of the
    input, and nothing after it; the transcript grows by exactly these
    messages under the client's name.  So the message ["exit"] is never
    sent, and the loop ends without error only on ["exit"]. *)
Theorem client_sends_until_exit
    (TrimFunc_IsSpace TrimRightFunc_IsSpace : string → string)
    (growcap : nat → nat → nat) (name : string)
    (reads : list (string * option string)) (s : state) (h : list string) :
  wf s → transcript s = Some h →
  let trim := TrimSpace TrimFunc_IsSpace TrimRightFunc_IsSpace in
  ∃ sent rest out s' status,
    chat_loop TrimFunc_IsSpace TrimRightFunc_IsSpace growcap name reads s
    = (out, s', status)
    ∧ reads = sent ++ rest
    ∧ Forall (λ rd, rd.2 = None ∧ trim rd.1 ≠ "exit") sent
    ∧ wf s'
    ∧ transcript s'
      = Some (h ++ ((λ rd, name +:+ ": " +:+ trim rd.1) <$> sent))
    ∧ match rest with
      | [] => status = Some "Error reading message:EOF"
      | (line, None) :: _ => trim line = "exit" ∧ status = None
      | (_, Some e) :: _ => status = Some ("Error reading message:" +:+ e)
      end.
Proof. intros Hwf Hh. by apply chat_loop_session. Qed.

Lemma client_sends_until_exit_witness :
  let reads := [("hello" +:+ nl, None); ("  " +:+ nl, None); (" exit" +:+ nl, None);
                ("too late" +:+ nl, None)] in
  let trim := TrimSpace id id in
  ∃ sent rest out s' status,
    chat_loop id id doubling "bob" reads (after [Submit "alice" "hi"])
    = (out, s', status)
    ∧ reads = sent ++ rest
    ∧ Forall (λ rd, rd.2 = None ∧ trim rd.1 ≠ "exit") sent
    ∧ wf s'
    ∧ transcript s'
      = Some (["alice: hi"] ++ ((λ rd, "bob" +:+ ": " +:+ trim rd.1) <$> sent))
    ∧ match rest with
      | [] => status = Some "Error reading message:EOF"
      | (line, None) :: _ => trim line = "exit" ∧ status = None
      | (_, Some e) :: _ => status = Some ("Error reading message:" +:+ e)
      end.
Proof.
  intros reads.
  apply (client_sends_until_exit id id doubling "bob" reads
           (after [Submit "alice" "hi"]) ["alice: hi"]).
  - eval_wf.
  - vm_compute. reflexivity.
Defined.

(** X9: what the client shows.  After a message is sent the client prints,
    between the two rules, every line of the transcript as the server
    returned it, oldest first, each on a line of its own, and the last of
    them is the client's own message under its name; then it prompts
    again. *)
Theorem client_prints_whole_transcript
    (TrimFunc_IsSpace TrimRightFunc_IsSpace : string → string)
    (growcap : nat → nat → nat) (name line : string)
    (rest : list (string * option string)) (s : state) (h : list string) :
  wf s → transcript s = Some h →
  TrimSpace TrimFunc_IsSpace TrimRightFunc_IsSpace line ≠ "exit" →
  let loop := chat_loop TrimFunc_IsSpace TrimRightFunc_IsSpace growcap in
  let mine := name +:+ ": " +:+ TrimSpace TrimFunc_IsSpace TrimRightFunc_IsSpace line in
  ∃ s1 out s' status,
    transcript s1 = Some (h ++ [mine])
    ∧ loop name rest s1 = (out, s', status)
    ∧ loop name ((line, None) :: rest) s
      = ("Enter message (or 'exit' to quit): "
           :: (nl +:+ "--- Chat History ---" +:+ nl)
           :: ((λ msg, msg +:+ nl) <$> (h ++ [mine]))
           ++ ("------------------" +:+ nl +:+ nl)
           :: out,
         s', status).
Proof.
  intros Hwf Hh Hne loop mine. subst loop mine.
  destruct (SendMessage_spec growcap
              {| Name := name;
                 Message := TrimSpace TrimFunc_IsSpace TrimRightFunc_IsSpace line |}
              zero_reply s h Hwf Hh) as (s1 & lr & Hc & _ & Ht & _ & Hlr & _).
  cbn [format_line Name Message] in *.
  destruct (chat_loop TrimFunc_IsSpace TrimRightFunc_IsSpace growcap name rest s1)
    as [[out s'] status] eqn:Hrest.
  exists s1, out, s', status. split; [done|]. split; [done|].
  rewrite chat_loop_cons, chat_round_trim, decide_False by done.
  rewrite Hc, Hrest. cbn [History].
  rewrite (elems_whole lr (mem s1) _ _ Hlr); [done|].
  rewrite length_app. simpl. lia.
Qed.

Lemma client_prints_whole_transcript_witness :
  let loop := chat_loop id id doubling in
  let mine := "bob" +:+ ": " +:+ TrimSpace id id (" hello " +:+ nl) in
  let rest := [("exit" +:+ nl, None)] in
  ∃ s1 out s' status,
    transcript s1 = Some (["alice: hi"] ++ [mine])
    ∧ loop "bob" rest s1 = (out, s', status)
    ∧ loop "bob" ((" hello " +:+ nl, None) :: rest) (after [Submit "alice" "hi"])
      = ("Enter message (or 'exit' to quit): "
           :: (nl +:+ "--- Chat History ---" +:+ nl)
           :: ((λ msg, msg +:+ nl) <$> (["alice: hi"] ++ [mine]))
           ++ ("------------------" +:+ nl +:+ nl)
           :: out,
         s', status).
Proof.
  intros loop mine rest.
  apply (client_prints_whole_transcript id id doubling "bob" (" hello " +:+ nl) rest
           (after [Submit "alice" "hi"]) ["alice: hi"]).
  - eval_wf.
  - vm_compute. reflexivity.
  - vm_compute. discriminate.
Defined.

(** X10: the client from its start.  The name is read once and trimmed, and
    every line the session adds to the transcript carries that trimmed name;
    the lines are those of a prefix of the input that follows the name.
    The first two things printed are the prompt for the name and the
    welcome, and ["Goodbye!"] is the last thing printed exactly when the
    session ended by ["exit"] and not by a failed read. *)
Theorem client_main_session
    (TrimFunc_IsSpace TrimRightFunc_IsSpace : string → string)
    (growcap : nat → nat → nat) (typed_name : string)
    (reads : list (string * option string)) (s : state) (h : list string) :
  wf s → transcript s = Some h →
  let trim := TrimSpace TrimFunc_IsSpace TrimRightFunc_IsSpace in
  ∃ sent out s' status,
    client_main TrimFunc_IsSpace TrimRightFunc_IsSpace growcap
      ((typed_name, None) :: reads) s
    = ("Enter your name: "
         :: ("Welcome, " +:+ trim typed_name +:+ "! You can start chatting." +:+ nl)
         :: out, s', status)
    ∧ sent `prefix_of` reads
    ∧ transcript s'
      = Some (h ++ ((λ rd, trim typed_name +:+ ": " +:+ trim rd.1) <$> sent))
    ∧ (last out = Some ("Goodbye!" +:+ nl) ↔ status = None).
Proof.
  intros Hwf Hh trim. subst trim. unfold client_main.
  destruct (chat_loop_session TrimFunc_IsSpace TrimRightFunc_IsSpace growcap
              (TrimSpace TrimFunc_IsSpace TrimRightFunc_IsSpace typed_name)
              reads s h Hwf Hh)
    as (sent & rest & out & s' & status & Hloop & -> & _ & _ & Ht & _).
  destruct (chat_loop_ends_with_prompt TrimFunc_IsSpace TrimRightFunc_IsSpace growcap
              (TrimSpace TrimFunc_IsSpace TrimRightFunc_IsSpace typed_name)
              (sent ++ rest) s) as [pre Hpre].
  rewrite Hloop in Hpre |- *. simpl in Hpre. subst out.
  exists sent. eexists _, s', status. split; [reflexivity|].
  split; [by apply prefix_app_r|]. split; [done|].
  destruct status as [what|].
  - rewrite app_nil_r, last_snoc. split; [intros [=]|done].
  - rewrite last_snoc. done.
Qed.

Lemma client_main_session_witness :
  let reads := [("hello" +:+ nl, None); ("exit" +:+ nl, None)] in
  let trim := TrimSpace id id in
  ∃ sent out s' status,
    client_main id id doubling ((" bob " +:+ nl, None) :: reads)
      (after [Submit "alice" "hi"])
    = ("Enter your name: "
         :: ("Welcome, " +:+ trim (" bob " +:+ nl) +:+ "! You can start chatting." +:+ nl)
         :: out, s', status)
    ∧ sent `prefix_of` reads
    ∧ transcript s'
      = Some (["alice: hi"]
              ++ ((λ rd, trim (" bob " +:+ nl) +:+ ": " +:+ trim rd.1) <$> sent))
    ∧ (last out = Some ("Goodbye!" +:+ nl) ↔ status = None).
Proof.
  intros reads.
  apply (client_main_session id id doubling (" bob " +:+ nl) reads
           (after [Submit "alice" "hi"]) ["alice: hi"]).
  - eval_wf.
  - vm_compute. reflexivity.
Defined.

(** ** Serial orders and completion *)

Lemma lines_reorder (reqs : list op) (k : list string) :
  k ≡ₚ reqs ≫= line_of → ∃ ops, ops ≡ₚ reqs ∧ ops ≫= line_of = k.
Proof.
  revert reqs. induction k as [|x k IH]; intros reqs Hk.
  - exists reqs. split; [done|]. by apply Permutation_nil in Hk.
  - assert (x ∈ reqs ≫= line_of) as Hx by (rewrite <- Hk; left).
    apply list_elem_of_bind in Hx as (o & Ho & Hin).
    destruct o as [sender text|]; [|by apply elem_of_nil in Ho].
    apply list_elem_of_singleton in Ho as ->.
    apply list_elem_of_split in Hin as (r1 & r2 & ->).
    assert (k ≡ₚ (r1 ++ r2) ≫= line_of) as Hk'.
    { apply (Permutation_cons_inv (a := sender +:+ ": " +:+ text)).
      rewrite Hk, !bind_app, bind_cons. simpl.
      by rewrite Permutation_middle. }
    destruct (IH _ Hk') as (ops & Hops & Hl).
    exists (Submit sender text :: ops). split.
    + rewrite Hops. apply Permutation_middle.
    + by rewrite bind_cons, Hl.
Qed.

Section Completion.

Variable growcap : nat → nat → nat.

Lemma inv_progress h0 c :
  inv h0 c → replies_inv h0 c → finished c = false →
  ∃ t c', step growcap t c = Some c'.
Proof.
  intros Hinv Hrep Hfin.
  destruct c as [sc gs]. unfold finished in Hfin. simpl in Hfin.
  assert (∃ t g, gs !! t = Some g
                 ∧ if mu (srv sc) then critical g sc else pc g = at_Lock)
    as (t & g & Hg & Hcan).
  { pose proof Hinv as (_ & _ & Hmu). simpl in Hmu. destruct (mu (srv sc)).
    - destruct Hmu as (t & g & ? & ? & _). eauto.
    - destruct (not_all_returned gs Hfin) as (t & g & Hg & Hr).
      exists t, g. split; [done|]. unfold returned in Hr.
      destruct (Hmu t g Hg) as [Hpc|Hpc]; [done..|]. by rewrite Hpc in Hr. }
  destruct (holder_moves growcap h0 sc gs t g Hinv Hrep Hg Hcan) as (s' & g' & Hs).
  exists t. unfold step. simpl. rewrite Hg. simpl. rewrite Hs. simpl. eauto.
Qed.

Lemma inv_completes h0 n c :
  inv h0 c → replies_inv h0 c → sum_list_with todo (pool c) = n →
  ∃ more c', exec growcap more c = Some c' ∧ finished c' = true.
Proof.
  revert c. induction n as [|n IH]; intros c Hinv Hrep Hn.
  - exists [], c. split; [done|]. unfold finished. by apply finished_todo.
  - destruct (finished c) eqn:Hfin; [by exists [], c|].
    destruct (inv_progress h0 c Hinv Hrep Hfin) as (t & c1 & Hst).
    assert (exec growcap [t] c = Some c1) as Hex by (simpl; by rewrite Hst).
    destruct (exec_both_inv growcap h0 [t] c c1 Hinv Hrep Hex) as (Hinv1 & Hrep1 & _).
    pose proof (exec_todo growcap [t] c c1 Hex) as Hsum. simpl in Hsum.
    destruct (IH c1 Hinv1 Hrep1) as (more & c' & Hmore & Hfin'); [lia|].
    exists (t :: more), c'. simpl. rewrite Hst. done.
Qed.

End Completion.

(** X11: the calls can always all return.  Whatever a schedule has done so
    far with the calls that arrived at a well-formed server, it can be
    continued so that every call returns; in particular for every set of
    calls there is a schedule under which all return. *)
Theorem every_execution_can_finish
    (growcap : nat → nat → nat) (s : state) (h0 : list string)
    (reqs : list op) (sched : list nat) (c : config) :
  wf s → transcript s = Some h0 →
  exec growcap sched (serve s reqs) = Some c →
  ∃ more c', exec growcap (sched ++ more) (serve s reqs) = Some c'
             ∧ finished c' = true.
Proof.
  intros Hwf Hh Hex.
  destruct (reachable_inv growcap s h0 reqs sched c Hwf Hh Hex) as (Hinv & Hrep & _).
  destruct (inv_completes growcap h0 _ c Hinv Hrep eq_refl) as (more & c' & Hm & Hf).
  exists more, c'. rewrite exec_app, Hex. done.
Qed.

Lemma every_execution_can_finish_witness :
  let reqs := [Submit "alice" "hi"; Fetch; Submit "bob" "hello"] in
  let sched := replicate 8 2 ++ [0; 0; 0] in
  let c := default (serve init reqs) (exec doubling sched (serve init reqs)) in
  ∃ more c', exec doubling (sched ++ more) (serve init reqs) = Some c'
             ∧ finished c' = true.
Proof.
  intros reqs sched c.
  apply (every_execution_can_finish doubling init [] reqs sched c).
  - eval_wf.
  - reflexivity.
  - vm_compute. reflexivity.
Defined.

(** X12: concurrent calls are serializable.  When all the calls served
    concurrently have returned, the transcript is the one that the same
    calls leave when they are made one after the other in some order. *)
Theorem concurrent_calls_are_serializable
    (growcap : nat → nat → nat) (s : state) (h0 : list string)
    (reqs : list op) (sched : list nat) (c : config) :
  wf s → transcript s = Some h0 →
  exec growcap sched (serve s reqs) = Some c →
  finished c = true →
  ∃ ops s', ops ≡ₚ reqs
            ∧ run growcap ops s = Some s'
            ∧ transcript s' = transcript (shared c).
Proof.
  intros Hwf Hh Hex Hfin.
  destruct (exec_finished growcap s h0 reqs sched c Hwf Hh Hex Hfin)
    as (h & Ht & Hperm & _).
  destruct (reachable_inv growcap s h0 reqs sched c Hwf Hh Hex)
    as (_ & (h' & Ht' & [k Hk] & _) & _).
  rewrite Ht in Ht'. injection Ht' as <-. subst h.
  apply Permutation_app_inv_l in Hperm.
  destruct (lines_reorder reqs k Hperm) as (ops & Hops & Hl).
  destruct (run_spec growcap ops s h0 Hwf Hh) as (s' & Hr & _ & Hs').
  exists ops, s'. split_and!; [done..|]. by rewrite Hs', Hl, Ht.
Qed.

Lemma concurrent_calls_are_serializable_witness :
  let reqs := [Submit "alice" "hi"; Fetch; Submit "bob" "hello"] in
  let sched := replicate 8 2 ++ replicate 4 1 ++ replicate 8 0 in
  let c := default (serve init reqs) (exec doubling sched (serve init reqs)) in
  ∃ ops s', ops ≡ₚ reqs
            ∧ run doubling ops init = Some s'
            ∧ transcript s' = transcript (shared c).
Proof.
  intros reqs sched c.
  apply (concurrent_calls_are_serializable doubling init [] reqs sched c).
  - eval_wf.
  - reflexivity.
  - vm_compute. reflexivity.
  - vm_compute. reflexivity.
Defined.

(** X13: [GetHistory] returns the whole transcript.  On a server whose
    transcript is [h] the reply holds exactly the lines [h], in order, in a
    slice whose length and capacity are both the number of lines, and the
    error is [nil]; after any calls from the start of the server these are
    the lines of all the [Submit] calls so far, in call order. *)
Theorem Fetch_returns_the_transcript
    (growcap : nat → nat → nat) (s : state) (h : list string)
    (reply : HistoryReply) (ops : list op) :
  wf s → transcript s = Some h →
  (∃ s' reply',
     GetHistory reply s = Some (s', reply', None)
     ∧ elems (History reply') (mem s') = Some h
     ∧ s_len (History reply') = length h ∧ s_cap (History reply') = length h)
  ∧ (∃ s1 s' reply',
       run growcap ops init = Some s1
       ∧ GetHistory reply s1 = Some (s', reply', None)
       ∧ elems (History reply') (mem s') = Some (ops ≫= line_of)).
Proof.
  intros Hwf Hh.
  assert (∀ s0 h0, wf s0 → transcript s0 = Some h0 →
            ∃ s' reply', GetHistory reply s0 = Some (s', reply', None)
              ∧ elems (History reply') (mem s') = Some h0
              ∧ s_len (History reply') = length h0
              ∧ s_cap (History reply') = length h0) as Hget.
  { intros s0 h0 Hwf0 Hh0.
    destruct (GetHistory_spec reply s0 h0 Hwf0 Hh0) as (lr & Hc & _).
    eexists _, _. split; [exact Hc|]. simpl. split_and!; [|done..].
    apply elems_whole; [|done]. by rewrite lookup_insert_eq. }
  split; [by apply Hget|].
  destruct (run_init growcap ops) as (s1 & Hr & Hwf1 & Ht1).
  destruct (Hget s1 _ Hwf1 Ht1) as (s' & reply' & Hc & He & _).
  by exists s1, s', reply'.
Qed.

Lemma Fetch_returns_the_transcript_witness :
  let ops := [Submit "alice" "hi"; Fetch; Submit "bob" "hello"] in
  (∃ s' reply',
     GetHistory zero_reply (after [Submit "alice" "hi"]) = Some (s', reply', None)
     ∧ elems (History reply') (mem s') = Some ["alice: hi"]
     ∧ s_len (History reply') = length ["alice: hi"]
     ∧ s_cap (History reply') = length ["alice: hi"])
  ∧ (∃ s1 s' reply',
       run doubling ops init = Some s1
       ∧ GetHistory zero_reply s1 = Some (s', reply', None)
       ∧ elems (History reply') (mem s') = Some (ops ≫= line_of)).
Proof.
  intros ops.
  apply (Fetch_returns_the_transcript doubling (after [Submit "alice" "hi"])
           ["alice: hi"] zero_reply ops).
  - eval_wf.
  - vm_compute. reflexivity.
Defined.
